(** * pip/req/req_set.py: the requirement set, its install order and the
      install loop

    A shallow embedding of [Requirements] and [RequirementSet]
    (src/pip/req/req_set.py).  Python objects are shared and mutated in
    place, so requirement objects live in a store indexed by references and
    every container of the set holds references, never copies. *)

From Stdlib Require Import Ascii String.
From stdpp Require Import strings sorting.
From stdpp Require Import base option functions relations sets gmap list.

Open Scope string_scope.
Open Scope list_scope.

Set Warnings "-clear-no-such-hyp".

(** ** Strings *)

(** [str.lower()] on ASCII text: the letters A-Z move to a-z. *)
Definition ascii_lower (c : ascii) : ascii :=
  let n := nat_of_ascii c in
  if (65 <=? n)%nat && (n <=? 90)%nat then ascii_of_nat (n + 32) else c.

Fixpoint lower (s : string) : string :=
  match s with
  | EmptyString => EmptyString
  | String c s' => String (ascii_lower c) (lower s')
  end.

(** The order [sorted] uses on [str]: lexicographic on the characters. *)
Definition str_le (s1 s2 : string) : Prop := String.leb s1 s2 = true.

#[global] Instance str_le_dec : RelDecision str_le.
Proof. intros s1 s2. unfold str_le. apply _. Defined.

(** ** Exceptions and results *)

(** A reference to an [InstallRequirement] object.  The class defines no
    [__eq__] or [__hash__], so set membership and dictionary keys go by
    object identity. *)
Definition ref := nat.

Inductive InstallationError_msg :=
| NotSupportedWheel (wheel_filename : string)
    (* "%s is not a supported wheel on this platform." *)
| DoubleRequirement (install_req existing_req : ref) (name : string)
    (* "Double requirement given: %s (already in %s, name=%r)" *)
| CouldNotSatisfyConstraints (name : string).
    (* "Could not satisfy constraints for '%s': installation from path or
        url cannot be constrained to a version" *)

Inductive exn :=
| InstallationError (msg : InstallationError_msg)
| KeyError (key : string)
| TypeError (what : string)
| OtherError (what : string).   (* raised by a collaborator *)

(** The one error a lookup raises. *)
Definition is_KeyError (e : exn) : Prop :=
  match e with
  | KeyError _ => True
  | _ => False
  end.

Inductive outcome (A : Type) :=
| Return (a : A)
| Raise (e : exn).
Arguments Return {A} a.
Arguments Raise {A} e.

Definition bind {A B} (m : outcome A) (k : A -> outcome B) : outcome B :=
  match m with
  | Return a => k a
  | Raise e => Raise e
  end.

Fixpoint mapM_outcome {A B} (f : A -> outcome B) (l : list A) : outcome (list B) :=
  match l with
  | [] => Return []
  | x :: l' =>
      bind (f x) (fun y => bind (mapM_outcome f l') (fun ys => Return (y :: ys)))
  end.

(** ** Requirement objects *)

(** [pip.index.Link], as far as this file reads it. *)
Record Link := {
  path : string;
  filename : string;
  is_wheel : bool;
}.

(** The value of [extras]: the file reads any iterable of strings and
    writes a tuple. *)
Inductive Extras :=
| ExtrasSet (s : gset string)
| ExtrasTuple (t : list string).

(** Python [==] on these values: a set never equals a tuple. *)
Definition Extras_eq (a b : Extras) : bool :=
  match a, b with
  | ExtrasSet s1, ExtrasSet s2 => bool_decide (s1 = s2)
  | ExtrasTuple t1, ExtrasTuple t2 => bool_decide (t1 = t2)
  | _, _ => false
  end.

(** [set(extras)] *)
Definition Extras_set (a : Extras) : gset string :=
  match a with
  | ExtrasSet s => s
  | ExtrasTuple t => list_to_set t
  end.

(** [sorted(s)] for a set of strings *)
Definition sorted (s : gset string) : list string :=
  merge_sort str_le (elements s).

(** The attributes of an [InstallRequirement] that this file reads or
    writes.  [specifier] stands for [req.specifier], compared with [==]. *)
Record InstallRequirement := {
  name : option string;
  specifier : gset string;
  extras : Extras;
  link : option Link;
  constraint : bool;
  satisfied_by : option string;
  conflicts_with : option string;
  install_succeeded : bool;
  use_user_site : bool;
  target_dir : option string;
  pycompile : bool;
  is_direct : bool;
}.

(** The object store. *)
Abbreviation heap := (ref -> InstallRequirement).

(** ** class Requirements *)

Record Requirements := {
  _keys : list string;
  _dict : gmap string ref;
}.

Definition Requirements_init : Requirements :=
  {| _keys := []; _dict := ∅ |}.

Definition Requirements_keys (self : Requirements) : list string := _keys self.

Definition Requirements_contains (self : Requirements) (item : string) : bool :=
  bool_decide (item ∈ _keys self).

Definition Requirements_getitem (self : Requirements) (key : string) : outcome ref :=
  match _dict self !! key with
  | Some v => Return v
  | None => Raise (KeyError key)
  end.

Definition Requirements_values (self : Requirements) : outcome (list ref) :=
  mapM_outcome (Requirements_getitem self) (_keys self).

Definition Requirements_setitem (self : Requirements) (key : string) (value : ref)
  : Requirements :=
  {| _keys := if Requirements_contains self key then _keys self
              else _keys self ++ [key];
     _dict := <[key := value]> (_dict self) |}.

(** ** class RequirementSet *)

(** The fields of the set that the methods below touch.  The set-level
    options that [add_requirement] copies onto a requirement carry the
    prefix [rs_], their names being taken by the requirement's own
    attributes.  [_dependencies] is a [defaultdict(list)]: it is read with
    the empty list as default. *)
Record RequirementSet := {
  requirements : Requirements;
  requirement_aliases : gmap string string;
  unnamed_requirements : list ref;
  successfully_installed : list ref;
  reqs_to_cleanup : list ref;
  rs_use_user_site : bool;
  rs_target_dir : option string;
  rs_pycompile : bool;
  _dependencies : gmap ref (list ref);
}.

Definition RequirementSet_init (use_user_site0 : bool) (target_dir0 : option string)
    (pycompile0 : bool) : RequirementSet :=
  {| requirements := Requirements_init;
     requirement_aliases := ∅;
     unnamed_requirements := [];
     successfully_installed := [];
     reqs_to_cleanup := [];
     rs_use_user_site := use_user_site0;
     rs_target_dir := target_dir0;
     rs_pycompile := pycompile0;
     _dependencies := ∅ |}.

Definition set_requirements (self : RequirementSet) (v : Requirements) : RequirementSet :=
  {| requirements := v;
     requirement_aliases := requirement_aliases self;
     unnamed_requirements := unnamed_requirements self;
     successfully_installed := successfully_installed self;
     reqs_to_cleanup := reqs_to_cleanup self;
     rs_use_user_site := rs_use_user_site self;
     rs_target_dir := rs_target_dir self;
     rs_pycompile := rs_pycompile self;
     _dependencies := _dependencies self |}.

Definition set_requirement_aliases (self : RequirementSet) (v : gmap string string)
  : RequirementSet :=
  {| requirements := requirements self;
     requirement_aliases := v;
     unnamed_requirements := unnamed_requirements self;
     successfully_installed := successfully_installed self;
     reqs_to_cleanup := reqs_to_cleanup self;
     rs_use_user_site := rs_use_user_site self;
     rs_target_dir := rs_target_dir self;
     rs_pycompile := rs_pycompile self;
     _dependencies := _dependencies self |}.

Definition set_unnamed_requirements (self : RequirementSet) (v : list ref)
  : RequirementSet :=
  {| requirements := requirements self;
     requirement_aliases := requirement_aliases self;
     unnamed_requirements := v;
     successfully_installed := successfully_installed self;
     reqs_to_cleanup := reqs_to_cleanup self;
     rs_use_user_site := rs_use_user_site self;
     rs_target_dir := rs_target_dir self;
     rs_pycompile := rs_pycompile self;
     _dependencies := _dependencies self |}.

Definition set_successfully_installed (self : RequirementSet) (v : list ref)
  : RequirementSet :=
  {| requirements := requirements self;
     requirement_aliases := requirement_aliases self;
     unnamed_requirements := unnamed_requirements self;
     successfully_installed := v;
     reqs_to_cleanup := reqs_to_cleanup self;
     rs_use_user_site := rs_use_user_site self;
     rs_target_dir := rs_target_dir self;
     rs_pycompile := rs_pycompile self;
     _dependencies := _dependencies self |}.

Definition set_reqs_to_cleanup (self : RequirementSet) (v : list ref) : RequirementSet :=
  {| requirements := requirements self;
     requirement_aliases := requirement_aliases self;
     unnamed_requirements := unnamed_requirements self;
     successfully_installed := successfully_installed self;
     reqs_to_cleanup := v;
     rs_use_user_site := rs_use_user_site self;
     rs_target_dir := rs_target_dir self;
     rs_pycompile := rs_pycompile self;
     _dependencies := _dependencies self |}.

Definition set_dependencies (self : RequirementSet) (v : gmap ref (list ref))
  : RequirementSet :=
  {| requirements := requirements self;
     requirement_aliases := requirement_aliases self;
     unnamed_requirements := unnamed_requirements self;
     successfully_installed := successfully_installed self;
     reqs_to_cleanup := reqs_to_cleanup self;
     rs_use_user_site := rs_use_user_site self;
     rs_target_dir := rs_target_dir self;
     rs_pycompile := rs_pycompile self;
     _dependencies := v |}.

(** [get_requirement]: the exact name, its alias, the lowercase name, its
    alias, in that order. *)
Definition get_requirement (self : RequirementSet) (project_name : string) : outcome ref :=
  let lookup (name : string) (otherwise : outcome ref) : outcome ref :=
    if Requirements_contains (requirements self) name
    then Requirements_getitem (requirements self) name
    else match requirement_aliases self !! name with
         | Some real_name => Requirements_getitem (requirements self) real_name
         | None => otherwise
         end in
  lookup project_name
    (lookup (lower project_name) (Raise (KeyError project_name))).

(** ** add_requirement *)

(** Truthiness of a name or of a parent name: [None] and the empty string
    are false. *)
Definition nonempty (s : option string) : option string :=
  match s with
  | Some n => if decide (n = "") then None else Some n
  | None => None
  end.

(** Lines 150-153: the settings of the set are copied onto the incoming
    object, and [is_direct] records whether a parent was named. *)
Definition with_settings (self : RequirementSet) (parent_req_name : option string)
    (r : InstallRequirement) : InstallRequirement :=
  {| name := name r;
     specifier := specifier r;
     extras := extras r;
     link := link r;
     constraint := constraint r;
     satisfied_by := satisfied_by r;
     conflicts_with := conflicts_with r;
     install_succeeded := install_succeeded r;
     use_user_site := rs_use_user_site self;
     target_dir := rs_target_dir self;
     pycompile := rs_pycompile self;
     is_direct := bool_decide (parent_req_name = None) |}.

(** Lines 192-195: the existing constraint becomes a requirement to
    install, with the extras of both objects. *)
Definition promoted (existing_req install_req : InstallRequirement) : InstallRequirement :=
  {| name := name existing_req;
     specifier := specifier existing_req;
     extras := ExtrasTuple
                 (sorted (Extras_set (extras existing_req) ∪ Extras_set (extras install_req)));
     link := link existing_req;
     constraint := false;
     satisfied_by := satisfied_by existing_req;
     conflicts_with := conflicts_with existing_req;
     install_succeeded := install_succeeded existing_req;
     use_user_site := use_user_site existing_req;
     target_dir := target_dir existing_req;
     pycompile := pycompile existing_req;
     is_direct := is_direct existing_req |}.

(** Lines 183-184:
    [install_req.link and not (existing_req.link and
       install_req.link.path == existing_req.link.path)] *)
Definition link_conflict (install_link existing_link : option Link) : bool :=
  match install_link with
  | None => false
  | Some l =>
      negb (match existing_link with
            | None => false
            | Some l' => bool_decide (path l = path l')
            end)
  end.

(** Lines 164-167: the condition of the double-requirement error; the
    result is the existing object that the incoming one doubles. *)
Definition double_requirement (h : heap) (parent_req_name : option string)
    (existing_req : option ref) (install_req : ref) : option ref :=
  match parent_req_name, existing_req with
  | None, Some e =>
      if negb (constraint (h e))
         && Extras_eq (extras (h e)) (extras (h install_req))
         && negb (bool_decide (specifier (h e) = specifier (h install_req)))
      then Some e else None
  | _, _ => None
  end.

(** Lines 203-206: the edge from the parent to the canonical object. *)
Definition record_dependency (h : heap) (self : RequirementSet)
    (parent_req_name : option string) (install_req : ref) (result : list ref)
  : heap * RequirementSet * outcome (list ref) :=
  match nonempty parent_req_name with
  | None => (h, self, Return result)
  | Some parent_name =>
      match get_requirement self parent_name with
      | Raise e => (h, self, Raise e)
      | Return parent_req =>
          (h,
           set_dependencies self
             (<[parent_req := (_dependencies self !!! parent_req) ++ [install_req]]>
                (_dependencies self)),
           Return result)
      end
  end.


Section AddRequirement.

(** Collaborators defined outside this file: the method
    [InstallRequirement.match_markers] and [Wheel(filename).supported()]. *)
Context (match_markers : InstallRequirement -> option (list string) -> bool).
Context (Wheel_supported : string -> bool).

(** Lines 142-148: the wheel of the link, when it is one that this
    platform does not support. *)
Definition unsupported_wheel (l : option Link) : option string :=
  match l with
  | Some lk =>
      if is_wheel lk && negb (Wheel_supported (filename lk))
      then Some (filename lk) else None
  | None => None
  end.

Definition add_requirement (h : heap) (self : RequirementSet) (install_req : ref)
    (parent_req_name : option string) (extras_requested : option (list string))
  : heap * RequirementSet * outcome (list ref) :=
  let name := name (h install_req) in
  if negb (match_markers (h install_req) extras_requested) then (h, self, Return [])
  else
    match unsupported_wheel (link (h install_req)) with
    | Some wheel_filename =>
        (h, self, Raise (InstallationError (NotSupportedWheel wheel_filename)))
    | None =>
        let h := <[install_req := with_settings self parent_req_name (h install_req)]> h in
        match nonempty name with
        | None =>
            (* url or path requirement w/o an egg fragment *)
            (h,
             set_unnamed_requirements self (unnamed_requirements self ++ [install_req]),
             Return [install_req])
        | Some name =>
            (* try: ... except KeyError: existing_req = None; a lookup
               raises nothing else *)
            let existing_req :=
              match get_requirement self name with
              | Return r => Some r
              | Raise _ => None
              end in
            match double_requirement h parent_req_name existing_req install_req with
            | Some doubled =>
              (h, self,
               Raise (InstallationError (DoubleRequirement install_req doubled name)))
            | None =>
              match existing_req with
              | None =>
                  (* Add requirement *)
                  let self :=
                    set_requirements self
                      (Requirements_setitem (requirements self) name install_req) in
                  let self :=
                    if bool_decide (lower name ≠ name)
                    then set_requirement_aliases self
                           (<[lower name := name]> (requirement_aliases self))
                    else self in
                  record_dependency h self parent_req_name install_req [install_req]
              | Some existing_req =>
                  if negb (constraint (h install_req)) && constraint (h existing_req)
                  then
                    if link_conflict (link (h install_req)) (link (h existing_req))
                    then
                      (h,
                       set_reqs_to_cleanup self (reqs_to_cleanup self ++ [install_req]),
                       Raise (InstallationError (CouldNotSatisfyConstraints name)))
                    else
                      let h :=
                        <[existing_req := promoted (h existing_req) (h install_req)]> h in
                      record_dependency h self parent_req_name existing_req [existing_req]
                  else
                    record_dependency h self parent_req_name existing_req []
              end
            end
        end
    end.

End AddRequirement.

(** ** _to_install *)

(** The two variables the closure [schedule] updates. *)
Record sched := {
  order : list ref;
  ordered_reqs : gset ref;
}.

(** The two early returns of [schedule]: the requirement is satisfied, or
    it is (still) a constraint. *)
Definition skipped (h : heap) (req : ref) : bool :=
  bool_decide (is_Some (satisfied_by (h req))) || constraint (h req).

(** The loop [for dep in deps: schedule(dep)], over any step function. *)
Fixpoint for_each {A S : Type} (step : A -> S -> option S) (l : list A) (s : S)
  : option S :=
  match l with
  | [] => Some s
  | x :: l' =>
      match step x s with
      | Some s' => for_each step l' s'
      | None => None
      end
  end.

(** [schedule], with a bound on the depth of the recursion; [None] when
    the bound is reached. *)
Fixpoint schedule (h : heap) (dependencies : gmap ref (list ref)) (fuel : nat)
    (req : ref) (s : sched) : option sched :=
  match fuel with
  | O => None
  | S fuel' =>
      if bool_decide (is_Some (satisfied_by (h req)))
         || bool_decide (req ∈ ordered_reqs s)
      then Some s
      else if constraint (h req) then Some s
      else
        let s := {| order := order s; ordered_reqs := {[req]} ∪ ordered_reqs s |} in
        match for_each (schedule h dependencies fuel') (dependencies !!! req) s with
        | Some s =>
            Some {| order := order s ++ [req]; ordered_reqs := ordered_reqs s |}
        | None => None
        end
  end.

(** A depth that no run exceeds: only a requirement that has an entry in
    [_dependencies] has dependencies to descend into, and none is entered
    twice. *)
Definition depth_bound (dependencies : gmap ref (list ref)) : nat :=
  S (size (dom dependencies)).

Definition _to_install (h : heap) (self : RequirementSet) : option (outcome (list ref)) :=
  match Requirements_values (requirements self) with
  | Raise e => Some (Raise e)
  | Return values =>
      let dependencies := _dependencies self in
      match for_each (schedule h dependencies (depth_bound dependencies)) values
              {| order := []; ordered_reqs := ∅ |} with
      | Some s => Some (Return (order s))
      | None => None
      end
  end.

(** The invariant of [Requirements]: [__setitem__] is the only writer, so
    every key listed has an entry. *)
Definition Requirements_ok (self : Requirements) : Prop :=
  Forall (fun key => is_Some (_dict self !! key)) (_keys self).

(** A recorded edge: [dep] is in [_dependencies[req]]. *)
Definition edge (dependencies : gmap ref (list ref)) (req dep : ref) : Prop :=
  dep ∈ dependencies !!! req.

(** An edge to a requirement that [schedule] does not skip. *)
Definition live_edge (h : heap) (dependencies : gmap ref (list ref)) (req dep : ref)
  : Prop :=
  edge dependencies req dep /\ skipped h dep = false.

(** No requirement reaches itself along recorded edges. *)
Definition acyclic (dependencies : gmap ref (list ref)) : Prop :=
  forall req, ~ tc (edge dependencies) req req.

(** [c] stands before [p] in the order. *)
Definition precedes (l : list ref) (c p : ref) : Prop :=
  exists i j, l !! i = Some c /\ l !! j = Some p /\ i < j.

(** What a run of [schedule] adds: new requirements at the end of the
    order, each of them marked, none of them marked before, none of them
    skipped, none of them twice. *)
Definition extends (h : heap) (s s' : sched) : Prop :=
  exists new,
    order s' = order s ++ new
    /\ ordered_reqs s' = ordered_reqs s ∪ list_to_set new
    /\ NoDup new
    /\ forall x, x ∈ new -> (x ∉ ordered_reqs s) /\ skipped h x = false.

(** Every requirement in the order has its live dependencies before it. *)
Definition dependencies_first (h : heap) (dependencies : gmap ref (list ref))
    (l : list ref) : Prop :=
  forall req dep, req ∈ l -> live_edge h dependencies req dep -> precedes l dep req.

(** A requirement that is marked and not yet in the order: [schedule] is
    in the middle of its dependencies. *)
Definition pending (s : sched) (req : ref) : Prop :=
  req ∈ ordered_reqs s /\ req ∉ order s.

(** ** install *)

(** [', '.join([req.name for req in to_install])] needs every name to be a
    string. *)
Definition all_named (h : heap) (to_install : list ref) : Prop :=
  Forall (fun r => is_Some (name (h r))) to_install.

#[global] Instance all_named_dec h to_install : Decision (all_named h to_install).
Proof. unfold all_named. apply _. Defined.

(** The calls [install] makes on its collaborators.  The world keeps a log
    of them in the order made, each with how it ended: [None] when it
    returned, [Some e] when it raised [e]. *)
Inductive call :=
| Call_uninstall (requirement : ref)                (* requirement.uninstall(auto_confirm=True) *)
| Call_install (requirement : ref)                  (* requirement.install(...) *)
| Call_rollback (requirement : ref)                 (* requirement.uninstalled_pathset.rollback() *)
| Call_commit (requirement : ref)                   (* requirement.uninstalled_pathset.commit() *)
| Call_remove_temporary_source (requirement : ref). (* requirement.remove_temporary_source() *)

Section Install.

(** Whatever the collaborators act on besides the requirement objects
    (the file system, the installed distributions). *)
Context {Env : Type}.

Record world := {
  objects : heap;
  env : Env;
  calls : list (call * option exn);
}.

(** A method of a collaborator: it may change the objects and the
    environment, and returns ([None]) or raises ([Some e]). *)
Definition method : Type := ref -> heap -> Env -> heap * Env * option exn.

(** The methods [install] calls, all defined outside this file. *)
Record collaborators := {
  InstallRequirement_uninstall : method;
  InstallRequirement_install : method;
  UninstallPathSet_rollback : method;
  UninstallPathSet_commit : method;
  InstallRequirement_remove_temporary_source : method;
}.

Context (ext : collaborators).

(** Computations over the world that return or raise. *)
Definition M (A : Type) : Type := world -> world * outcome A.

#[local] Instance M_ret : MRet M := fun A a w => (w, Return a).
#[local] Instance M_bind : MBind M := fun A B k m w =>
  match m w with
  | (w', Return a) => k a w'
  | (w', Raise e) => (w', Raise e)
  end.

Definition raise {A} (e : exn) : M A := fun w => (w, Raise e).

Definition try_except_else {A B} (body : M A) (except : exn -> M B) (orelse : A -> M B)
  : M B :=
  fun w =>
    match body w with
    | (w', Return a) => orelse a w'
    | (w', Raise e) => except e w'
    end.

Definition getattr {A} (field : InstallRequirement -> A) (requirement : ref) : M A :=
  fun w => (w, Return (field (objects w requirement))).

Definition invoke (m : method) (c : ref -> call) (requirement : ref) : M unit :=
  fun w =>
    let '(h, e, r) := m requirement (objects w) (env w) in
    let w' := {| objects := h; env := e; calls := calls w ++ [(c requirement, r)] |} in
    match r with
    | None => (w', Return tt)
    | Some err => (w', Raise err)
    end.

Definition when (b : bool) (m : M unit) : M unit := if b then m else mret tt.

(** The body of the loop, lines 291-315. *)
Definition install_requirement (requirement : ref) : M unit :=
  conflicts ← getattr conflicts_with requirement;
  when (bool_decide (is_Some conflicts))
    (invoke (InstallRequirement_uninstall ext) Call_uninstall requirement);;
  try_except_else
    (invoke (InstallRequirement_install ext) Call_install requirement)
    (fun e =>
       (* if install did not succeed, rollback previous uninstall *)
       conflicts ← getattr conflicts_with requirement;
       succeeded ← getattr install_succeeded requirement;
       when (bool_decide (is_Some conflicts) && negb succeeded)
         (invoke (UninstallPathSet_rollback ext) Call_rollback requirement);;
       raise e)
    (fun _ =>
       conflicts ← getattr conflicts_with requirement;
       succeeded ← getattr install_succeeded requirement;
       when (bool_decide (is_Some conflicts) && succeeded)
         (invoke (UninstallPathSet_commit ext) Call_commit requirement));;
  invoke (InstallRequirement_remove_temporary_source ext) Call_remove_temporary_source
    requirement.

(** [for requirement in to_install: ...] *)
Fixpoint install_all (to_install : list ref) : M unit :=
  match to_install with
  | [] => mret tt
  | requirement :: rest => install_requirement requirement;; install_all rest
  end.

(** [install]: the order is computed first, on the objects as they are
    then; the names of the order are joined for the log line, which needs
    each of them to be a string; [successfully_installed] is assigned when
    the loop ends. *)
Definition install (self : RequirementSet) (w : world)
  : option (RequirementSet * world * outcome unit) :=
  match _to_install (objects w) self with
  | None => None
  | Some (Raise e) => Some (self, w, Raise e)
  | Some (Return to_install) =>
      if bool_decide (all_named (objects w) to_install) then
        match install_all to_install w with
        | (w', Return _) => Some (set_successfully_installed self to_install, w', Return tt)
        | (w', Raise e) => Some (self, w', Raise e)
        end
      else
        Some (self, w, Raise (TypeError "sequence item: expected str instance"))
  end.

End Install.

(** The requirement a call is made on. *)
Definition call_requirement (c : call) : ref :=
  match c with
  | Call_uninstall r | Call_install r | Call_rollback r | Call_commit r
  | Call_remove_temporary_source r => r
  end.

(** ** has_requirement, has_requirements, cleanup_files *)

(** [has_requirement]: the lowercase name is looked up among the keys,
    then among the aliases; [A and B or C and D] reads the alias only when
    the key is missing or names a constraint. *)
Definition has_requirement (h : heap) (self : RequirementSet) (project_name : string)
  : outcome bool :=
  let name := lower project_name in
  bind
    (if Requirements_contains (requirements self) name
     then bind (Requirements_getitem (requirements self) name)
            (fun r => Return (negb (constraint (h r))))
     else Return false)
    (fun by_key =>
       if by_key then Return true
       else
         match requirement_aliases self !! name with
         | Some real_name =>
             bind (Requirements_getitem (requirements self) real_name)
               (fun r => Return (negb (constraint (h r))))
         | None => Return false
         end).

(** [has_requirements]: the registered requirements that are not
    constraints, or, when there is none, the unnamed ones. *)
Definition has_requirements (h : heap) (self : RequirementSet) : outcome (list ref) :=
  bind (Requirements_values (requirements self))
    (fun values =>
       let reqs := filter (fun req => constraint (h req) = false) values in
       Return (match reqs with
               | [] => unnamed_requirements self
               | _ :: _ => reqs
               end)).

Section CleanupFiles.

Context {Env : Type} (ext : @collaborators Env).

#[local] Existing Instance M_ret.
#[local] Existing Instance M_bind.

(** [for req in self.reqs_to_cleanup: req.remove_temporary_source()] *)
Fixpoint remove_temporary_sources (reqs : list ref) : @M Env unit :=
  match reqs with
  | [] => mret tt
  | req :: rest =>
      invoke (InstallRequirement_remove_temporary_source ext)
        Call_remove_temporary_source req;;
      remove_temporary_sources rest
  end.

Definition cleanup_files (self : RequirementSet) : @M Env unit :=
  remove_temporary_sources (reqs_to_cleanup self).

End CleanupFiles.

(** ** States of the set *)

(** [Requirements]: [__setitem__] is the only writer of [_keys] and
    [_dict], so the keys are distinct and are the keys of the
    dictionary. *)
Definition Requirements_wf (self : Requirements) : Prop :=
  NoDup (_keys self) /\ dom (_dict self) = list_to_set (_keys self).

(** The registry with its aliases, as [add_requirement] keeps it: an alias
    is the lowercase form of a registered name and is not itself
    registered, and every registered name that is not lowercase has its
    alias. *)
Definition registry_ok (self : RequirementSet) : Prop :=
  Requirements_wf (requirements self)
  /\ map_Forall
       (fun alias real_name =>
          real_name ∈ _keys (requirements self)
          /\ alias = lower real_name
          /\ alias ∉ _keys (requirements self))
       (requirement_aliases self)
  /\ Forall
       (fun key => lower key <> key -> requirement_aliases self !! lower key = Some key)
       (_keys (requirements self)).

#[global] Instance registry_ok_dec self : Decision (registry_ok self).
Proof. unfold registry_ok, Requirements_wf. apply _. Defined.

(** An object that some key of the registry maps to. *)
Definition registered (self : RequirementSet) (r : ref) : Prop :=
  r ∈ (map_to_list (_dict (requirements self))).*2.

(** The edges of the set join registered objects. *)
Definition dependencies_ok (self : RequirementSet) : Prop :=
  map_Forall
    (fun parent_req deps => registered self parent_req /\ Forall (registered self) deps)
    (_dependencies self).

#[global] Instance dependencies_ok_dec self : Decision (dependencies_ok self).
Proof. unfold dependencies_ok, registered. apply _. Defined.

(** ** The paths of add_requirement *)

(** The set after the registration of a first occurrence (lines 173-176). *)
Definition with_requirement (self : RequirementSet) (name : string) (r : ref)
  : RequirementSet :=
  let self1 :=
    set_requirements self (Requirements_setitem (requirements self) name r) in
  if bool_decide (lower name ≠ name)
  then set_requirement_aliases self1 (<[lower name := name]> (requirement_aliases self1))
  else self1.

(** The paths of [add_requirement], one by one. *)
Inductive add_requirement_path (h : heap) (self : RequirementSet) (install_req : ref)
    (parent_req_name : option string)
  : heap * RequirementSet * outcome (list ref) -> Prop :=
| path_ignored :
    add_requirement_path h self install_req parent_req_name (h, self, Return [])
| path_wheel wheel_filename :
    add_requirement_path h self install_req parent_req_name
      (h, self, Raise (InstallationError (NotSupportedWheel wheel_filename)))
| path_unnamed :
    nonempty (name (h install_req)) = None ->
    add_requirement_path h self install_req parent_req_name
      (<[install_req := with_settings self parent_req_name (h install_req)]> h,
       set_unnamed_requirements self (unnamed_requirements self ++ [install_req]),
       Return [install_req])
| path_double n doubled :
    parent_req_name = None ->
    add_requirement_path h self install_req parent_req_name
      (<[install_req := with_settings self parent_req_name (h install_req)]> h,
       self,
       Raise (InstallationError (DoubleRequirement install_req doubled n)))
| path_new n e :
    nonempty (name (h install_req)) = Some n ->
    get_requirement self n = Raise e ->
    add_requirement_path h self install_req parent_req_name
      (record_dependency
         (<[install_req := with_settings self parent_req_name (h install_req)]> h)
         (with_requirement self n install_req) parent_req_name install_req [install_req])
| path_conflict n existing :
    nonempty (name (h install_req)) = Some n ->
    get_requirement self n = Return existing ->
    add_requirement_path h self install_req parent_req_name
      (<[install_req := with_settings self parent_req_name (h install_req)]> h,
       set_reqs_to_cleanup self (reqs_to_cleanup self ++ [install_req]),
       Raise (InstallationError (CouldNotSatisfyConstraints n)))
| path_promote n existing :
    nonempty (name (h install_req)) = Some n ->
    get_requirement self n = Return existing ->
    constraint (h install_req) = false ->
    constraint (h existing) = true ->
    add_requirement_path h self install_req parent_req_name
      (record_dependency
         (<[existing := promoted (h existing)
                          (with_settings self parent_req_name (h install_req))]>
            (<[install_req := with_settings self parent_req_name (h install_req)]> h))
         self parent_req_name existing [existing])
| path_merge n existing :
    nonempty (name (h install_req)) = Some n ->
    get_requirement self n = Return existing ->
    add_requirement_path h self install_req parent_req_name
      (record_dependency
         (<[install_req := with_settings self parent_req_name (h install_req)]> h)
         self parent_req_name existing []).

(** The attributes that say what a requirement is. *)
Definition same_identity (a b : InstallRequirement) : Prop :=
  name a = name b
  /\ specifier a = specifier b
  /\ link a = link b
  /\ satisfied_by a = satisfied_by b
  /\ conflicts_with a = conflicts_with b
  /\ install_succeeded a = install_succeeded b.

(** ** Reading the log of calls *)

(** The requirements on which [install] was called, in the order of the
    calls, and those whose temporary source was removed. *)
Definition install_calls (cs : list (call * option exn)) : list ref :=
  omap (fun c => match c.1 with Call_install r => Some r | _ => None end) cs.

Definition removal_calls (cs : list (call * option exn)) : list ref :=
  omap (fun c => match c.1 with Call_remove_temporary_source r => Some r | _ => None end)
    cs.

Definition is_rollback (c : call) : bool :=
  match c with
  | Call_rollback _ => true
  | _ => false
  end.

(** How a run of calls ends: with nothing when it returns; when it raises
    [e], with the call that raised [e], or with an install that raised
    and the rollback that followed it. *)
Definition run_end (tail : list (call * option exn)) (out : outcome unit) : Prop :=
  match out with
  | Return _ => tail = []
  | Raise e =>
      (exists c, tail = [(c, Some e)])
      \/ (exists r e0 x,
            tail = [(Call_install r, Some e0); (Call_rollback r, x)]
            /\ e = default e0 x)
  end.

(** * Example sets

    Concrete objects and sets, built with [add_requirement] itself, on
    which the statements below are exercised. *)

Definition all_markers_match : InstallRequirement -> option (list string) -> bool :=
  fun _ _ => true.

Definition all_wheels_supported : string -> bool := fun _ => true.

Definition requirement (n : option string) (spec : gset string) (ext : Extras)
    (lk : option Link) (is_constraint : bool) (satisfied conflicts : option string)
  : InstallRequirement :=
  {| name := n;
     specifier := spec;
     extras := ext;
     link := lk;
     constraint := is_constraint;
     satisfied_by := satisfied;
     conflicts_with := conflicts;
     install_succeeded := false;
     use_user_site := false;
     target_dir := None;
     pycompile := false;
     is_direct := false |}.

Definition plain (n : string) : InstallRequirement :=
  requirement (Some n) ∅ (ExtrasSet ∅) None false None None.

Definition empty_set : RequirementSet := RequirementSet_init false None true.

(** One call of [add_requirement] after another: each pair is an object
    and the name of its parent. *)
Definition add_one (st : heap * RequirementSet) (a : ref * option string)
  : heap * RequirementSet :=
  (add_requirement all_markers_match all_wheels_supported st.1 st.2 a.1 a.2 None).1.

Definition add_all (h : heap) (admissions : list (ref * option string))
  : heap * RequirementSet :=
  foldl add_one (h, empty_set) admissions.

(** A constraint [pkg>=1.0], then [pkg>=1.0[extra]] from the same archive
    (object 2) or from a local directory (object 3), wanted by [X]. *)
Definition pkg_archive : Link :=
  {| path := "/packages/pkg-1.0.tar.gz"; filename := "pkg-1.0.tar.gz"; is_wheel := false |}.

Definition pkg_directory : Link :=
  {| path := "/home/user/pkg"; filename := "pkg"; is_wheel := false |}.

Definition pkg_heap : heap := fun r =>
  match r with
  | 0 => plain "X"
  | 1 => requirement (Some "pkg") {[">=1.0"]} (ExtrasSet ∅) (Some pkg_archive) true None None
  | 2 => requirement (Some "pkg") {[">=1.0"]} (ExtrasSet {["extra"]}) (Some pkg_archive)
           false None None
  | 3 => requirement (Some "pkg") {[">=1.0"]} (ExtrasSet {["extra"]}) (Some pkg_directory)
           false None None
  | _ => requirement None ∅ (ExtrasSet ∅) (Some pkg_directory) false None None
  end.

Definition pkg_state : heap * RequirementSet := add_all pkg_heap [(0, None); (1, None)].



(** [p] wants [s], which is installed already and wants [c]. *)
Definition satisfied_heap : heap := fun r =>
  match r with
  | 0 => plain "p"
  | 1 => requirement (Some "s") ∅ (ExtrasSet ∅) None false (Some "s 1.0") None
  | _ => plain "c"
  end.

Definition satisfied_state : heap * RequirementSet :=
  add_all satisfied_heap [(0, None); (1, Some "p"); (2, Some "s")].

(** A graph without cycles: [app] wants [web] and [db]; both want [util]
    and [core]; [util] wants [core]; [core] wants [old], which is
    installed already; [app] is also bounded by the constraint [pin]. *)
Definition dag_heap : heap := fun r =>
  match r with
  | 0 => plain "app"
  | 1 => plain "web"
  | 2 => plain "db"
  | 3 => plain "util"
  | 4 => plain "core"
  | 5 => requirement (Some "old") ∅ (ExtrasSet ∅) None false (Some "old 0.1") None
  | _ => requirement (Some "pin") {["<2"]} (ExtrasSet ∅) None true None None
  end.

Definition dag_state : heap * RequirementSet :=
  add_all dag_heap
    [(6, None); (0, None); (1, Some "app"); (2, Some "app"); (3, Some "web");
     (4, Some "web"); (3, Some "db"); (4, Some "db"); (4, Some "util");
     (5, Some "core"); (7, Some "app")].

(** A cycle: [a] wants [b], [b] wants [c], [c] wants [a]. *)
Definition cycle_heap : heap := fun r =>
  match r with
  | 0 => plain "a"
  | 1 => plain "b"
  | _ => plain "c"
  end.

Definition cycle_state : heap * RequirementSet :=
  add_all cycle_heap [(0, None); (1, Some "a"); (2, Some "b"); (0, Some "c")].

(** A requirement given as a path, without a name. *)
Definition unnamed_heap : heap := fun _ =>
  requirement None ∅ (ExtrasSet ∅) (Some pkg_directory) false None None.

(** Three requirements to install: [b], then [a], which conflicts with the
    installed [a-old 0.9] and whose install fails, then [c].  The
    environment is the set of installed distributions. *)
Definition install_heap : heap := fun r =>
  match r with
  | 0 => plain "b"
  | 1 => requirement (Some "a") ∅ (ExtrasSet ∅) None false None (Some "a-old 0.9")
  | _ => plain "c"
  end.

Definition install_state : heap * RequirementSet :=
  add_all install_heap [(0, None); (1, None); (2, None)].

Definition succeeded (r : InstallRequirement) : InstallRequirement :=
  {| name := name r;
     specifier := specifier r;
     extras := extras r;
     link := link r;
     constraint := constraint r;
     satisfied_by := satisfied_by r;
     conflicts_with := conflicts_with r;
     install_succeeded := true;
     use_user_site := use_user_site r;
     target_dir := target_dir r;
     pycompile := pycompile r;
     is_direct := is_direct r |}.

Definition failing_install : @collaborators (gset string) :=
  {| InstallRequirement_uninstall := fun r h installed =>
       (h, installed ∖ from_option singleton ∅ (conflicts_with (h r)), None);
     InstallRequirement_install := fun r h installed =>
       if decide (r = 1) then (h, installed, Some (OtherError "setup.py install failed"))
       else (<[r := succeeded (h r)]> h,
             installed ∪ from_option singleton ∅ (name (h r)), None);
     UninstallPathSet_rollback := fun r h installed =>
       (h, installed ∪ from_option singleton ∅ (conflicts_with (h r)), None);
     UninstallPathSet_commit := fun r h installed => (h, installed, None);
     InstallRequirement_remove_temporary_source := fun r h installed =>
       (h, installed, None) |}.

(** [b] conflicts with the installed [b-old 1.0], and its install
    succeeds. *)
Definition upgrade_heap : heap := fun r =>
  match r with
  | 0 => requirement (Some "b") ∅ (ExtrasSet ∅) None false None (Some "b-old 1.0")
  | _ => plain "c"
  end.

Definition upgrade_state : heap * RequirementSet :=
  add_all upgrade_heap [(0, None); (2, None)].

Definition upgrade_world : @world (gset string) :=
  {| objects := upgrade_state.1; env := {["b-old 1.0"]}; calls := [] |}.

(** Collaborators that do nothing and report nothing. *)
Definition quiet_install : @collaborators (gset string) :=
  {| InstallRequirement_uninstall := fun r h installed => (h, installed, None);
     InstallRequirement_install := fun r h installed => (h, installed, None);
     UninstallPathSet_rollback := fun r h installed => (h, installed, None);
     UninstallPathSet_commit := fun r h installed => (h, installed, None);
     InstallRequirement_remove_temporary_source := fun r h installed =>
       (h, installed, None) |}.

(** A set that holds the constraint [pkg>=1.0] and nothing else. *)
Definition pinned_state : heap * RequirementSet := add_all pkg_heap [(1, None)].

Definition install_world : @world (gset string) :=
  {| objects := install_state.1; env := {["a-old 0.9"]}; calls := [] |}.

(** * Properties *)

Arguments double_requirement : simpl never.
Arguments record_dependency : simpl never.
Arguments link_conflict : simpl never.
Arguments with_settings : simpl never.
Arguments promoted : simpl never.
Arguments get_requirement : simpl never.
Arguments skipped : simpl never.

(** ** Lookups raise nothing but [KeyError] *)

Lemma Requirements_getitem_raises self key e :
  Requirements_getitem self key = Raise e -> is_KeyError e.
Proof.
  unfold Requirements_getitem. destruct (_dict self !! key); [discriminate|].
  intros [= <-]. exact I.
Qed.

Lemma get_requirement_raises self project_name e :
  get_requirement self project_name = Raise e -> is_KeyError e.
Proof.
  unfold get_requirement.
  repeat (case_match; eauto using Requirements_getitem_raises).
  intros [= <-]. exact I.
Qed.

(** ** What [with_settings] and the promotion leave alone *)

Lemma skipped_with_settings h self parent_req_name r r' :
  skipped (<[r := with_settings self parent_req_name (h r)]> h) r' = skipped h r'.
Proof.
  unfold skipped. destruct (decide (r = r')) as [<-|Hne].
  - by rewrite fn_lookup_insert.
  - by rewrite fn_lookup_insert_ne.
Qed.

Lemma double_requirement_with_settings h self parent_req_name p existing_req r :
  double_requirement (<[r := with_settings self parent_req_name (h r)]> h)
    p existing_req r
  = double_requirement h p existing_req r.
Proof.
  unfold double_requirement. destruct p; [done|]. destruct existing_req as [e|]; [|done].
  rewrite fn_lookup_insert. destruct (decide (r = e)) as [<-|Hne].
  - by rewrite fn_lookup_insert.
  - by rewrite fn_lookup_insert_ne.
Qed.

Lemma record_dependency_result h self parent_req_name r result h' self' out :
  record_dependency h self parent_req_name r result = (h', self', out) ->
  h' = h /\ (out = Return result \/ exists e, out = Raise e /\ is_KeyError e).
Proof.
  unfold record_dependency. destruct (nonempty parent_req_name) as [p|].
  - destruct (get_requirement self p) as [pr|e] eqn:Hp; intros [= <- <- <-].
    + eauto.
    + split; [done|]. right. eauto using get_requirement_raises.
  - intros [= <- <- <-]. eauto.
Qed.

(** ** The order [sorted] works with *)





(** ** The registry stays well formed *)

Lemma Requirements_init_ok : Requirements_ok Requirements_init.
Proof. constructor. Qed.

Lemma Requirements_setitem_ok self key value :
  Requirements_ok self -> Requirements_ok (Requirements_setitem self key value).
Proof.
  unfold Requirements_ok, Requirements_setitem. simpl. intros Hok.
  assert (Hold : Forall (fun k => is_Some (<[key:=value]> (_dict self) !! k)) (_keys self)).
  { eapply Forall_impl; [exact Hok|]. intros k Hk. simpl.
    destruct (decide (key = k)) as [->|Hne].
    - rewrite lookup_insert_eq. by eexists.
    - by rewrite lookup_insert_ne. }
  destruct (Requirements_contains self key); [done|].
  apply Forall_app. split; [done|]. constructor; [|constructor].
  rewrite lookup_insert_eq. by eexists.
Qed.

Lemma record_dependency_requirements h self parent_req_name r result :
  requirements (record_dependency h self parent_req_name r result).1.2
  = requirements self.
Proof.
  unfold record_dependency. destruct (nonempty parent_req_name); [|done].
  by destruct (get_requirement self _).
Qed.


(** ** add_requirement *)

Section AddRequirementFacts.

Context (match_markers : InstallRequirement -> option (list string) -> bool).
Context (Wheel_supported : string -> bool).









(** Every set that [add_requirement] builds has a well-formed registry. *)
Lemma add_requirement_Requirements_ok h self install_req parent_req_name extras_requested :
  Requirements_ok (requirements self) ->
  Requirements_ok
    (requirements
       (add_requirement match_markers Wheel_supported h self install_req parent_req_name
          extras_requested).1.2).
Proof.
  intros Hok. unfold add_requirement.
  destruct (match_markers _ _); simpl; [|done].
  destruct (unsupported_wheel _ _); [done|].
  destruct (nonempty _) as [n|]; [|done].
  simpl. destruct (double_requirement _ _ _ _); [done|].
  destruct (get_requirement self n) as [e|].
  - destruct (negb _ && _).
    + destruct (link_conflict _ _); [done|]. by rewrite record_dependency_requirements.
    + by rewrite record_dependency_requirements.
  - rewrite record_dependency_requirements.
    destruct (bool_decide _); simpl; by apply Requirements_setitem_ok.
Qed.

End AddRequirementFacts.

(** ** The install order *)

Lemma for_each_ext {A S} (f g : A -> S -> option S) l s :
  (forall x s, f x s = g x s) -> for_each f l s = for_each g l s.
Proof.
  intros Hfg. revert s. induction l as [|x l IH]; intros s; simpl; [done|].
  rewrite Hfg. destruct (g x s); [apply IH|done].
Qed.

(** [schedule] reads two attributes of the objects and nothing else. *)
Lemma schedule_ext h1 h2 dependencies :
  (forall r, satisfied_by (h1 r) = satisfied_by (h2 r)
             /\ constraint (h1 r) = constraint (h2 r)) ->
  forall fuel req s,
    schedule h1 dependencies fuel req s = schedule h2 dependencies fuel req s.
Proof.
  intros Hh. induction fuel as [|fuel IH]; intros req s; simpl; [done|].
  destruct (Hh req) as [-> ->].
  by rewrite (for_each_ext _ _ _ _ IH).
Qed.

Lemma to_install_ext h1 h2 self1 self2 :
  (forall r, satisfied_by (h1 r) = satisfied_by (h2 r)
             /\ constraint (h1 r) = constraint (h2 r)) ->
  requirements self1 = requirements self2 ->
  _dependencies self1 = _dependencies self2 ->
  _to_install h1 self1 = _to_install h2 self2.
Proof.
  intros Hh Hr Hd. unfold _to_install. rewrite Hr, Hd.
  destruct (Requirements_values _); [|done].
  by rewrite (for_each_ext _ _ _ _ (schedule_ext h1 h2 _ Hh _)).
Qed.

Lemma Requirements_values_ok self :
  Requirements_ok self -> exists values, Requirements_values self = Return values.
Proof.
  unfold Requirements_ok, Requirements_values.
  induction 1 as [|key keys [v Hv] _ [values IH]]; simpl; [by eexists|].
  unfold Requirements_getitem at 1. rewrite Hv. simpl. rewrite IH. simpl. by eexists.
Qed.

Section Schedule.

Context (h : heap) (dependencies : gmap ref (list ref)).

Lemma extends_refl s : extends h s s.
Proof.
  exists []. rewrite app_nil_r. split; [done|]. split; [set_solver|].
  split; [constructor|]. intros x Hx. by apply elem_of_nil in Hx.
Qed.

Lemma extends_trans s1 s2 s3 : extends h s1 s2 -> extends h s2 s3 -> extends h s1 s3.
Proof.
  intros (n1 & Ho1 & Hv1 & Hd1 & Hn1) (n2 & Ho2 & Hv2 & Hd2 & Hn2).
  exists (n1 ++ n2). rewrite Ho2, Ho1, Hv2, Hv1, <- app_assoc.
  split; [done|]. split; [set_solver|]. split.
  - apply NoDup_app. repeat split; try done.
    intros x Hx1 Hx2. destruct (Hn2 x Hx2) as [Hnot _]. set_solver.
  - intros x [Hx|Hx]%elem_of_app; [by apply Hn1|].
    destruct (Hn2 x Hx) as [Hnot ?]. split; [set_solver|done].
Qed.

Lemma extends_subseteq s s' : extends h s s' -> ordered_reqs s ⊆ ordered_reqs s'.
Proof. intros (new & _ & -> & _). set_solver. Qed.

Lemma schedule_extends fuel :
  (forall req s s', schedule h dependencies fuel req s = Some s' ->
     extends h s s' /\ (skipped h req = false -> req ∈ ordered_reqs s'))
  /\ (forall deps s s', for_each (schedule h dependencies fuel) deps s = Some s' ->
        extends h s s'
        /\ forall dep, dep ∈ deps -> skipped h dep = false -> dep ∈ ordered_reqs s').
Proof.
  induction fuel as [|fuel [IHs IHf]].
  - assert (Hs : forall req s s', schedule h dependencies 0 req s = Some s' ->
       extends h s s' /\ (skipped h req = false -> req ∈ ordered_reqs s')) by done.
    split; [exact Hs|].
    induction deps as [|d deps IH]; intros s s'; simpl.
    + intros [= <-]. split; [apply extends_refl|]. by intros dep ?%elem_of_nil.
    + done.
  - assert (Hs : forall req s s', schedule h dependencies (S fuel) req s = Some s' ->
       extends h s s' /\ (skipped h req = false -> req ∈ ordered_reqs s')).
    { intros req s s'. simpl. unfold skipped.
      destruct (bool_decide (is_Some (satisfied_by (h req)))) eqn:Hsat; simpl.
      { intros [= <-]. split; [apply extends_refl|done]. }
      destruct (bool_decide (req ∈ ordered_reqs s)) eqn:Hin.
      { intros [= <-]. split; [apply extends_refl|]. intros _.
        by apply bool_decide_eq_true in Hin. }
      apply bool_decide_eq_false in Hin.
      destruct (constraint (h req)) eqn:Hcon.
      { intros [= <-]. split; [apply extends_refl|done]. }
      destruct (for_each _ _ _) as [s2|] eqn:Hfor; [|done].
      intros [= <-]. simpl.
      apply IHf in Hfor as [(new & Ho & Hv & Hd & Hn) _]. simpl in *.
      split.
      - exists (new ++ [req]). simpl. rewrite Ho, Hv, <- app_assoc.
        split; [done|]. split; [set_solver|]. split.
        + apply NoDup_app. repeat split; try done.
          * intros x Hx Hx'. apply list_elem_of_singleton in Hx' as ->.
            destruct (Hn req Hx) as [Hnot _]. set_solver.
          * apply NoDup_singleton.
        + intros x [Hx|Hx]%elem_of_app.
          * destruct (Hn x Hx) as [Hnot ?]. split; [set_solver|done].
          * apply list_elem_of_singleton in Hx as ->.
            split; [done|]. unfold skipped. by rewrite Hsat, Hcon.
      - intros _. rewrite Hv. set_solver. }
    split; [exact Hs|].
    induction deps as [|d deps IH]; intros s s'; cbn [for_each].
    + intros [= <-]. split; [apply extends_refl|]. by intros dep ?%elem_of_nil.
    + destruct (schedule h dependencies (S fuel) d s) as [s1|] eqn:Hd; [|done].
      intros Hrest. apply Hs in Hd as [Hext Hin]. apply IH in Hrest as [Hext' Hin'].
      split; [by eapply extends_trans|].
      intros dep [Hdep|Hdep]%elem_of_cons Hskip; [|by apply Hin'].
      subst dep. by apply (extends_subseteq _ _ Hext'), Hin.
Qed.

(** The recursion is never deeper than the number of unmarked
    requirements that have dependencies, so the bound is never reached. *)
Lemma schedule_terminates fuel :
  (forall req s, size (dom dependencies ∖ ordered_reqs s) < fuel ->
     is_Some (schedule h dependencies fuel req s))
  /\ (forall deps s, size (dom dependencies ∖ ordered_reqs s) < fuel ->
        is_Some (for_each (schedule h dependencies fuel) deps s)).
Proof.
  induction fuel as [|fuel [IHs IHf]]; [split; intros; lia|].
  assert (Hs : forall req s, size (dom dependencies ∖ ordered_reqs s) < S fuel ->
            is_Some (schedule h dependencies (S fuel) req s)).
  { intros req s Hlt. simpl.
    destruct (bool_decide (is_Some (satisfied_by (h req)))); simpl; [by eexists|].
    destruct (bool_decide (req ∈ ordered_reqs s)) eqn:Hin; [by eexists|].
    apply bool_decide_eq_false in Hin.
    destruct (constraint (h req)); [by eexists|].
    destruct (dependencies !!! req) as [|d ds] eqn:Hdeps; [by eexists|].
    rewrite <- Hdeps.
    assert (Hdom : req ∈ dom dependencies).
    { apply elem_of_dom. rewrite lookup_total_alt in Hdeps.
      destruct (dependencies !! req); [by eexists|done]. }
    edestruct (IHf (dependencies !!! req)) as [s2 ->]; [|by eexists].
    simpl.
    assert (dom dependencies ∖ ({[req]} ∪ ordered_reqs s)
            ⊂ dom dependencies ∖ ordered_reqs s) as Hsub%subset_size; [|lia].
    split; [set_solver|]. intros Hsub. specialize (Hsub req). set_solver. }
  split; [exact Hs|].
  induction deps as [|d deps IH]; intros s Hlt; cbn [for_each]; [by eexists|].
  destruct (Hs d s Hlt) as [s1 Hd]. rewrite Hd.
  apply IH. apply (schedule_extends (S fuel)) in Hd as [Hsub%extends_subseteq _].
  eapply Nat.le_lt_trans; [|exact Hlt]. apply subseteq_size. set_solver.
Qed.

(** *** Dependencies come first *)

Lemma precedes_app_l l l' c p : precedes l c p -> precedes (l ++ l') c p.
Proof.
  intros (i & j & Hi & Hj & Hlt). exists i, j. eauto using lookup_app_l_Some.
Qed.

Lemma precedes_snoc l c p : c ∈ l -> precedes (l ++ [p]) c p.
Proof.
  intros (i & Hi)%list_elem_of_lookup_1. exists i, (length l).
  split; [by apply lookup_app_l_Some|]. split; [|by eapply lookup_lt_Some].
  by rewrite list_lookup_middle.
Qed.

Lemma extends_pending s s' req :
  extends h s s' -> pending s' req -> pending s req.
Proof.
  intros (new & Ho & Hv & _) [Hin Hnot]. rewrite Ho in Hnot. rewrite Hv in Hin.
  rewrite elem_of_app in Hnot. split; set_solver.
Qed.

Lemma extends_marked s s' :
  extends h s s' ->
  (forall x, x ∈ order s -> x ∈ ordered_reqs s) ->
  forall x, x ∈ order s' -> x ∈ ordered_reqs s'.
Proof.
  intros (new & -> & -> & _) Hm x [Hx|Hx]%elem_of_app; set_solver.
Qed.

Lemma schedule_dependencies_first fuel :
  acyclic dependencies ->
  (forall req s s',
     (forall x, x ∈ order s -> x ∈ ordered_reqs s) ->
     dependencies_first h dependencies (order s) ->
     (forall g, pending s g -> rtc (edge dependencies) g req) ->
     schedule h dependencies fuel req s = Some s' ->
     dependencies_first h dependencies (order s'))
  /\ (forall deps s s',
        (forall x, x ∈ order s -> x ∈ ordered_reqs s) ->
        dependencies_first h dependencies (order s) ->
        (forall g dep, pending s g -> dep ∈ deps -> rtc (edge dependencies) g dep) ->
        for_each (schedule h dependencies fuel) deps s = Some s' ->
        dependencies_first h dependencies (order s')).
Proof.
  intros Hacyclic.
  assert (Hloop : forall fuel,
    (forall req s s',
       (forall x, x ∈ order s -> x ∈ ordered_reqs s) ->
       dependencies_first h dependencies (order s) ->
       (forall g, pending s g -> rtc (edge dependencies) g req) ->
       schedule h dependencies fuel req s = Some s' ->
       dependencies_first h dependencies (order s')) ->
    forall deps s s',
      (forall x, x ∈ order s -> x ∈ ordered_reqs s) ->
      dependencies_first h dependencies (order s) ->
      (forall g dep, pending s g -> dep ∈ deps -> rtc (edge dependencies) g dep) ->
      for_each (schedule h dependencies fuel) deps s = Some s' ->
      dependencies_first h dependencies (order s')).
  { intros fuel0 Hs. induction deps as [|d deps IH]; intros s s' Hm Hfirst Hpend;
      cbn [for_each].
    - by intros [= <-].
    - destruct (schedule h dependencies fuel0 d s) as [s1|] eqn:Hd; [|done].
      intros Hrest.
      pose proof (proj1 (proj1 (schedule_extends fuel0) _ _ _ Hd)) as Hext.
      eapply (IH s1); [by eapply extends_marked| |  |exact Hrest].
      + eapply Hs; [exact Hm|exact Hfirst| |exact Hd].
        intros g Hg. apply Hpend; [done|]. apply elem_of_cons. by left.
      + intros g dep Hg Hdep. apply Hpend; [by eapply extends_pending|].
        apply elem_of_cons. by right. }
  induction fuel as [|fuel [IHs IHf]].
  - split; [done|]. by apply Hloop.
  - assert (Hs : forall req s s',
       (forall x, x ∈ order s -> x ∈ ordered_reqs s) ->
       dependencies_first h dependencies (order s) ->
       (forall g, pending s g -> rtc (edge dependencies) g req) ->
       schedule h dependencies (S fuel) req s = Some s' ->
       dependencies_first h dependencies (order s')); [|split; [exact Hs|by apply Hloop]].
    intros req s s' Hm Hfirst Hpend. simpl.
    destruct (bool_decide (is_Some (satisfied_by (h req))) || _) eqn:Hskip.
    { by intros [= <-]. }
    apply orb_false_iff in Hskip as [Hsat Hin]. apply bool_decide_eq_false in Hin.
    destruct (constraint (h req)) eqn:Hcon.
    { by intros [= <-]. }
    set (s1 := {| order := order s; ordered_reqs := {[req]} ∪ ordered_reqs s |}).
    destruct (for_each _ _ s1) as [s2|] eqn:Hfor; [|done].
    intros [= <-]. simpl.
    assert (Hpend1 : forall g, pending s1 g -> rtc (edge dependencies) g req).
    { intros g [Hg Hnot]. simpl in *.
      destruct (decide (g = req)) as [->|Hne]; [done|].
      apply Hpend. split; [set_solver|done]. }
    assert (Hm1 : forall x, x ∈ order s1 -> x ∈ ordered_reqs s1).
    { intros x Hx. simpl in *. apply Hm in Hx. set_solver. }
    pose proof (proj2 (schedule_extends fuel) _ _ _ Hfor) as [Hext Hdeps].
    assert (Hfirst2 : dependencies_first h dependencies (order s2)).
    { eapply IHf; [exact Hm1|exact Hfirst| |exact Hfor].
      intros g dep Hg Hdep. eapply rtc_r; [by apply Hpend1|]. exact Hdep. }
    intros x dep [Hx|Hx]%elem_of_app Hedge.
    + by apply precedes_app_l, Hfirst2.
    + apply list_elem_of_singleton in Hx as ->. destruct Hedge as [Hedge Hlive].
      apply precedes_snoc.
      destruct (decide (dep ∈ order s2)) as [|Hnot]; [done|]. exfalso.
      apply (Hacyclic req). eapply tc_rtc_r; [by apply tc_once|].
      apply Hpend1. eapply extends_pending; [exact Hext|].
      split; [by apply Hdeps|done].
Qed.

End Schedule.

Lemma precedes_trans l a b c :
  NoDup l -> precedes l a b -> precedes l b c -> precedes l a c.
Proof.
  intros Hnd (i & j & Hi & Hj & Hij) (j' & k & Hj' & Hk & Hjk).
  assert (j = j') as <- by eauto using NoDup_lookup.
  exists i, k. repeat split; [done..|lia].
Qed.

Lemma precedes_elem_of l c p : precedes l c p -> c ∈ l /\ p ∈ l.
Proof. intros (i & j & Hi & Hj & _). eauto using list_elem_of_lookup_2. Qed.

Lemma dependencies_first_tc h dependencies l :
  NoDup l ->
  dependencies_first h dependencies l ->
  forall p c, tc (live_edge h dependencies) p c -> p ∈ l -> precedes l c p.
Proof.
  intros Hnd Hfirst p c Hpath. induction Hpath as [p c Hedge|p d c Hedge Hpath IH].
  - intros Hp. by apply Hfirst.
  - intros Hp. pose proof (Hfirst _ _ Hp Hedge) as Hd.
    eapply precedes_trans; [done| |exact Hd].
    apply IH. by apply precedes_elem_of in Hd as [? _].
Qed.

(** A ranking that falls along every edge rules cycles out. *)
Lemma ranked_acyclic (rank : ref -> nat) dependencies :
  map_Forall (fun req deps => Forall (fun dep => rank dep < rank req) deps) dependencies ->
  acyclic dependencies.
Proof.
  intros Hrank.
  assert (Hedge : forall x y, edge dependencies x y -> rank y < rank x).
  { intros x y. unfold edge. rewrite lookup_total_alt.
    destruct (dependencies !! x) as [deps|] eqn:Hx; simpl.
    - intros Hy. apply Hrank in Hx. by eapply Forall_forall in Hx.
    - by intros ?%elem_of_nil. }
  assert (Hpath : forall x y, tc (edge dependencies) x y -> rank y < rank x).
  { induction 1 as [x y H|x y z H _ IH]; [by apply Hedge|].
    apply Hedge in H. lia. }
  intros x Hx%Hpath. lia.
Qed.

(** What [_to_install] computes, in one statement: it ends; it returns an
    order whenever the registry is well formed; the order has no
    requirement twice and no skipped one, and, the graph being acyclic,
    it has the live dependencies of each requirement before it. *)
Lemma to_install_spec h self :
  exists out,
    _to_install h self = Some out
    /\ (Requirements_ok (requirements self) -> exists l, out = Return l)
    /\ forall l, out = Return l ->
         NoDup l
         /\ (forall r, r ∈ l -> skipped h r = false)
         /\ (acyclic (_dependencies self) ->
             dependencies_first h (_dependencies self) l).
Proof.
  unfold _to_install.
  destruct (Requirements_values (requirements self)) as [values|e] eqn:Hvalues.
  - set (init := {| order := []; ordered_reqs := ∅ |}).
    destruct (proj2 (schedule_terminates h (_dependencies self)
                       (depth_bound (_dependencies self))) values init)
      as [s Hs].
    { unfold depth_bound. simpl.
      eapply Nat.le_lt_trans; [apply subseteq_size|apply Nat.lt_succ_diag_r].
      set_solver. }
    rewrite Hs. eexists. split; [done|]. split; [by eexists|].
    intros l [= <-].
    pose proof (proj2 (schedule_extends h _ _) _ _ _ Hs) as [(new & Ho & _ & Hnd & Hnew) _].
    simpl in Ho. rewrite Ho. split; [done|]. split; [intros r Hr; by apply Hnew|].
    intros Hacyclic. rewrite <- Ho.
    eapply (proj2 (schedule_dependencies_first h _ _ Hacyclic)); [| | |exact Hs].
    + by intros x ?%elem_of_nil.
    + by intros req dep ?%elem_of_nil.
    + intros g dep [Hg _]. simpl in Hg. set_solver.
  - eexists. split; [done|]. split; [|done].
    intros [l Hl]%Requirements_values_ok. congruence.
Qed.

(** C3, amended.  With a well-formed registry and no cycle among the
    recorded edges, [_to_install] returns an order in which every
    requirement P of the order comes after every requirement C that P
    reaches along recorded edges through requirements that are not skipped
    (C included); each such C is in the order. *)
Theorem to_install_dependencies_first h self :
  Requirements_ok (requirements self) ->
  acyclic (_dependencies self) ->
  exists l,
    _to_install h self = Some (Return l)
    /\ forall p c,
         p ∈ l -> tc (live_edge h (_dependencies self)) p c ->
         c ∈ l /\ precedes l c p.
Proof.
  intros Hok Hacyclic.
  destruct (to_install_spec h self) as (out & Hout & Hret & Hspec).
  destruct (Hret Hok) as [l ->]. exists l. split; [done|].
  destruct (Hspec l eq_refl) as (Hnd & _ & Hfirst).
  intros p c Hp Hpath.
  assert (precedes l c p) as Hcp by eauto using dependencies_first_tc.
  split; [|done]. by apply precedes_elem_of in Hcp as [? _].
Qed.

(** C6.  On every set, cycles or not, [_to_install] ends within its depth
    bound; what it returns has no requirement twice; and it does return
    an order when the registry is well formed. *)
Theorem to_install_terminates_NoDup h self :
  exists out,
    _to_install h self = Some out
    /\ (forall l, out = Return l -> NoDup l)
    /\ (Requirements_ok (requirements self) -> exists l, out = Return l).
Proof.
  destruct (to_install_spec h self) as (out & Hout & Hret & Hspec).
  exists out. split; [done|]. split; [|done].
  intros l Hl. by destruct (Hspec l Hl) as [? _].
Qed.

(** C7.  With a well-formed registry, [_to_install] returns an order and
    raises nothing, and no requirement that has [satisfied_by] set or that
    is still a constraint is in the order, whatever reaches it. *)
Theorem to_install_omits_skipped h self :
  Requirements_ok (requirements self) ->
  exists l,
    _to_install h self = Some (Return l)
    /\ forall r,
         is_Some (satisfied_by (h r)) \/ constraint (h r) = true -> r ∉ l.
Proof.
  intros Hok.
  destruct (to_install_spec h self) as (out & Hout & Hret & Hspec).
  destruct (Hret Hok) as [l ->]. exists l. split; [done|].
  destruct (Hspec l eq_refl) as (_ & Hlive & _).
  intros r Hr Hin. apply Hlive in Hin. unfold skipped in Hin.
  apply orb_false_iff in Hin as [Hsat Hcon]. apply bool_decide_eq_false in Hsat.
  destruct Hr; [done|congruence].
Qed.

(** ** install *)

Section InstallFacts.

Context {Env : Type} (ext : @collaborators Env).

Lemma install_all_cons requirement rest (w : @world Env) :
  install_all ext (requirement :: rest) w
  = match install_requirement ext requirement w with
    | (w', Return _) => install_all ext rest w'
    | (w', Raise e) => (w', Raise e)
    end.
Proof. reflexivity. Qed.

Lemma install_all_app before after (w : @world Env) :
  install_all ext (before ++ after) w
  = match install_all ext before w with
    | (w', Return _) => install_all ext after w'
    | (w', Raise e) => (w', Raise e)
    end.
Proof.
  revert w. induction before as [|r before IH]; intros w; [done|].
  rewrite <- app_comm_cons, !install_all_cons.
  destruct (install_requirement ext r w) as [w' [[]|e]]; [apply IH|done].
Qed.

(** C5.  The order being [before ++ requirement :: after], its
    requirements having names, and those of [before] having been
    processed: when the requirement
    has [conflicts_with] set, its uninstall returns, and its install
    raises leaving [conflicts_with] set and [install_succeeded] false,
    then [rollback] is called next, on what the failed install left;
    [install] raises (the error of the install, when the rollback
    returns); no call is made after the rollback, so no requirement of
    [after] is processed; and [successfully_installed] is not assigned. *)
Theorem install_rolls_back_failed_install self (w0 w : @world Env)
    before requirement after h1 e1 h2 e2 err h3 e3 res :
  _to_install (objects w0) self = Some (Return (before ++ requirement :: after)) ->
  all_named (objects w0) (before ++ requirement :: after) ->
  install_all ext before w0 = (w, Return tt) ->
  is_Some (conflicts_with (objects w requirement)) ->
  InstallRequirement_uninstall ext requirement (objects w) (env w) = (h1, e1, None) ->
  InstallRequirement_install ext requirement h1 e1 = (h2, e2, Some err) ->
  is_Some (conflicts_with (h2 requirement)) ->
  install_succeeded (h2 requirement) = false ->
  UninstallPathSet_rollback ext requirement h2 e2 = (h3, e3, res) ->
  install ext self w0
  = Some (self,
          {| objects := h3; env := e3;
             calls := calls w ++ [(Call_uninstall requirement, None);
                                  (Call_install requirement, Some err);
                                  (Call_rollback requirement, res)] |},
          Raise (default err res)).
Proof.
  intros Horder Hnamed Hbefore Hc Hun Hin Hc2 Hsucc Hrb.
  unfold install. rewrite Horder, (bool_decide_eq_true_2 _ Hnamed).
  rewrite install_all_app, Hbefore, install_all_cons.
  unfold install_requirement, mbind, M_bind, getattr, when, try_except_else, invoke,
    raise.
  rewrite (bool_decide_eq_true_2 _ Hc), Hun. simpl. rewrite Hin. simpl.
  rewrite (bool_decide_eq_true_2 _ Hc2), Hsucc. simpl. rewrite Hrb. simpl.
  rewrite <- !app_assoc. simpl. by destruct res.
Qed.

(** C8, amended.  The calls made for one requirement are calls on that
    requirement.  When its install returned and no commit raised, the
    removal of its temporary source is the last of them, so it is made
    before the loop turns to the next requirement.  When its install
    raised, the body raises and the removal is not among them.  The loop
    goes on to the rest exactly when the body returns. *)
Theorem install_requirement_remove_temporary_source requirement rest (w : @world Env) :
  exists cs,
    calls (install_requirement ext requirement w).1 = calls w ++ cs
    /\ (forall c, c ∈ cs -> call_requirement c.1 = requirement)
    /\ ((Call_install requirement, None) ∈ cs ->
        (forall e, (Call_commit requirement, Some e) ∉ cs) ->
        exists cs0 res,
          cs = cs0 ++ [(Call_remove_temporary_source requirement, res)])
    /\ (forall e, (Call_install requirement, Some e) ∈ cs ->
        (exists e', (install_requirement ext requirement w).2 = Raise e')
        /\ forall res, (Call_remove_temporary_source requirement, res) ∉ cs)
    /\ install_all ext (requirement :: rest) w
       = match (install_requirement ext requirement w).2 with
         | Return _ => install_all ext rest (install_requirement ext requirement w).1
         | Raise e => ((install_requirement ext requirement w).1, Raise e)
         end.
Proof.
  rewrite install_all_cons.
  unfold install_requirement, mbind, M_bind, getattr, when, try_except_else, invoke,
    raise, mret, M_ret.
  destruct (bool_decide (is_Some (conflicts_with (objects w requirement)))); simpl.
  all: repeat match goal with
    | |- context [InstallRequirement_uninstall ext ?r ?h ?e] =>
        destruct (InstallRequirement_uninstall ext r h e) as [[? ?] [?|]]; simpl
    | |- context [InstallRequirement_install ext ?r ?h ?e] =>
        destruct (InstallRequirement_install ext r h e) as [[? ?] [?|]]; simpl
    | |- context [UninstallPathSet_rollback ext ?r ?h ?e] =>
        destruct (UninstallPathSet_rollback ext r h e) as [[? ?] [?|]]; simpl
    | |- context [UninstallPathSet_commit ext ?r ?h ?e] =>
        destruct (UninstallPathSet_commit ext r h e) as [[? ?] [?|]]; simpl
    | |- context [InstallRequirement_remove_temporary_source ext ?r ?h ?e] =>
        destruct (InstallRequirement_remove_temporary_source ext r h e)
          as [[? ?] [?|]]; simpl
    | |- context [if ?b then _ else _] => destruct b; simpl
    end.
  all: rewrite <- ?app_assoc; simpl; eexists; (split; [reflexivity|]).
  all: repeat split.
  all: try (intros c Hc; set_solver).
  all: try (intros Hin Hcommit; first [by eexists _, _; apply (app_nil_l [_])
                                      | by eexists [_], _ | by eexists [_; _], _
                                      | by eexists [_; _; _], _ | set_solver]).
  all: try (intros e' Hin; split; [first [by eexists|set_solver]|set_solver]).
  all: try by eexists.
  all: try set_solver.
Qed.

End InstallFacts.

(** C9, amended.  A requirement without a name that passes the marker and
    wheel checks is appended to [unnamed_requirements] and returned for
    scanning; nothing else of the set changes, so no lookup by name
    concerns it; and the install order is what it was before: the order is
    computed from [requirements] and [_dependencies], never from
    [unnamed_requirements]. *)
Theorem add_requirement_unnamed match_markers Wheel_supported h self install_req
    parent_req_name extras_requested :
  match_markers (h install_req) extras_requested = true ->
  unsupported_wheel Wheel_supported (link (h install_req)) = None ->
  nonempty (name (h install_req)) = None ->
  exists h',
    add_requirement match_markers Wheel_supported h self install_req parent_req_name
      extras_requested
    = (h',
       set_unnamed_requirements self (unnamed_requirements self ++ [install_req]),
       Return [install_req])
    /\ (forall r, r <> install_req -> h' r = h r)
    /\ h' install_req = with_settings self parent_req_name (h install_req)
    /\ _to_install h'
         (set_unnamed_requirements self (unnamed_requirements self ++ [install_req]))
       = _to_install h self.
Proof.
  intros Hm Hw Hn.
  exists (<[install_req := with_settings self parent_req_name (h install_req)]> h).
  split; [|split; [|split]].
  - unfold add_requirement. by rewrite Hm, Hw, Hn.
  - intros r Hr. by rewrite fn_lookup_insert_ne.
  - by rewrite fn_lookup_insert.
  - apply to_install_ext; [|done..].
    intros r. destruct (decide (install_req = r)) as [<-|Hne].
    + by rewrite fn_lookup_insert.
    + by rewrite fn_lookup_insert_ne.
Qed.

(** * The statements on the example sets *)



(** A graph of seven requirements with shared dependencies, a satisfied
    requirement and a constraint. *)
Lemma to_install_dependencies_first_witness :
  exists l,
    _to_install dag_state.1 dag_state.2 = Some (Return l)
    /\ forall p c,
         p ∈ l -> tc (live_edge dag_state.1 (_dependencies dag_state.2)) p c ->
         c ∈ l /\ precedes l c p.
Proof.
  apply to_install_dependencies_first.
  - apply (bool_decide_unpack _). vm_compute. exact I.
  - apply (ranked_acyclic (fun r => 10 - r)).
    apply (bool_decide_unpack _). vm_compute. exact I.
Defined.

Example to_install_dag :
  _to_install dag_state.1 dag_state.2 = Some (Return [4; 3; 1; 2; 0]).
Proof. vm_compute. reflexivity. Qed.

(** C3 as stated fails where a chain of edges passes through a skipped
    requirement: [p] wants [s], installed already, and [s] wants [c].
    Both [p] and [c] are in the order, [c] is reachable from [p], there is
    no cycle, and [p] comes first. *)
Lemma to_install_through_satisfied_counterexample :
  Requirements_ok (requirements satisfied_state.2)
  /\ acyclic (_dependencies satisfied_state.2)
  /\ _to_install satisfied_state.1 satisfied_state.2 = Some (Return [0; 2])
  /\ tc (edge (_dependencies satisfied_state.2)) 0 2
  /\ ~ precedes [0; 2] 2 0.
Proof.
  split; [|split; [|split; [|split]]].
  - apply (bool_decide_unpack _). vm_compute. exact I.
  - apply (ranked_acyclic (fun r => 10 - r)).
    apply (bool_decide_unpack _). vm_compute. exact I.
  - vm_compute. reflexivity.
  - apply tc_l with 1; [|apply tc_once]; unfold edge; vm_compute; constructor.
  - intros (i & j & Hi & Hj & Hlt).
    destruct i as [|[|i]]; simpl in Hi; try discriminate.
    destruct j as [|j]; simpl in Hj; [lia|].
    destruct j as [|j]; simpl in Hj; discriminate.
Qed.


(** The spec's scenario for C5: [a] conflicts with the installed
    [a-old 0.9]; the uninstall is done, the install of [a] fails, the
    rollback follows and [c] is never reached. *)
Lemma install_rolls_back_failed_install_witness :
  exists w',
    install failing_install install_state.2 install_world
    = Some (install_state.2, w', Raise (OtherError "setup.py install failed"))
    /\ calls w'
       = [(Call_install 0, None); (Call_remove_temporary_source 0, None);
          (Call_uninstall 1, None);
          (Call_install 1, Some (OtherError "setup.py install failed"));
          (Call_rollback 1, None)].
Proof.
  eexists. split.
  - apply (install_rolls_back_failed_install failing_install install_state.2
             install_world (install_all failing_install [0] install_world).1
             [0] 1 [2]
             (objects (install_all failing_install [0] install_world).1)
             (env (install_all failing_install [0] install_world).1
                ∖ {["a-old 0.9"]})
             (objects (install_all failing_install [0] install_world).1)
             (env (install_all failing_install [0] install_world).1
                ∖ {["a-old 0.9"]})
             (OtherError "setup.py install failed")
             (objects (install_all failing_install [0] install_world).1)
             (env (install_all failing_install [0] install_world).1
                ∖ {["a-old 0.9"]} ∪ {["a-old 0.9"]})
             None).
    + vm_compute. reflexivity.
    + apply (bool_decide_unpack _). vm_compute. exact I.
    + reflexivity.
    + vm_compute. eexists. reflexivity.
    + reflexivity.
    + reflexivity.
    + vm_compute. eexists. reflexivity.
    + reflexivity.
    + reflexivity.
  - reflexivity.
Defined.

(** The cycle of C6: the order is computed, each requirement once. *)
Example to_install_cycle :
  _to_install cycle_state.1 cycle_state.2 = Some (Return [2; 1; 0]).
Proof. vm_compute. reflexivity. Qed.

(** In the graph of seven, [old] (installed already) is wanted by [core]
    and [pin] (a constraint) by [app]; neither is in the order. *)
Lemma to_install_omits_skipped_witness :
  exists l,
    _to_install dag_state.1 dag_state.2 = Some (Return l)
    /\ forall r,
         is_Some (satisfied_by (dag_state.1 r)) \/ constraint (dag_state.1 r) = true ->
         r ∉ l.
Proof.
  apply to_install_omits_skipped.
  apply (bool_decide_unpack _). vm_compute. exact I.
Defined.

(** C8 as stated fails on a failed install: the install of [a] is
    attempted and raises, and [install] ends without a call to
    [remove_temporary_source] on [a]. *)
Lemma install_failed_keeps_temporary_source_counterexample :
  match install failing_install install_state.2 install_world with
  | Some (_, w', out) =>
      out = Raise (OtherError "setup.py install failed")
      /\ calls w'
         = [(Call_install 0, None); (Call_remove_temporary_source 0, None);
            (Call_uninstall 1, None);
            (Call_install 1, Some (OtherError "setup.py install failed"));
            (Call_rollback 1, None)]
      /\ forall res, (Call_remove_temporary_source 1, res) ∉ calls w'
  | None => False
  end.
Proof.
  vm_compute. split; [reflexivity|]. split; [reflexivity|].
  intros res Hin.
  repeat match goal with
         | H : list_elem_of _ _ |- _ => inversion H; clear H; subst
         | H : _ ∈ _ |- _ => inversion H; clear H; subst
         end.
Qed.

(** A requirement given as a path: it joins [unnamed_requirements]. *)
Lemma add_requirement_unnamed_witness :
  exists h',
    add_requirement all_markers_match all_wheels_supported unnamed_heap empty_set 0 None
      None
    = (h',
       set_unnamed_requirements empty_set (unnamed_requirements empty_set ++ [0]),
       Return [0])
    /\ (forall r, r <> 0 -> h' r = unnamed_heap r)
    /\ h' 0 = with_settings empty_set None (unnamed_heap 0)
    /\ _to_install h'
         (set_unnamed_requirements empty_set (unnamed_requirements empty_set ++ [0]))
       = _to_install unnamed_heap empty_set.
Proof.
  apply (add_requirement_unnamed all_markers_match all_wheels_supported unnamed_heap
           empty_set 0 None None); reflexivity.
Defined.

(** C9 as stated fails on its last part: the requirement is returned and
    is in [unnamed_requirements], and the install order computed next
    does not have it. *)
Lemma add_requirement_unnamed_not_ordered_counterexample :
  match add_requirement all_markers_match all_wheels_supported unnamed_heap empty_set
          0 None None with
  | (h', self', out) =>
      out = Return [0]
      /\ unnamed_requirements self' = [0]
      /\ _to_install h' self' = Some (Return [])
  end.
Proof. vm_compute. repeat split; reflexivity. Qed.


(** * Further properties *)

(** ** Strings *)

Lemma ascii_lower_idem c : ascii_lower (ascii_lower c) = ascii_lower c.
Proof. destruct c as [[] [] [] [] [] [] [] []]; reflexivity. Qed.

Lemma lower_idem s : lower (lower s) = lower s.
Proof.
  induction s as [|c s IH]; simpl; [done|]. by rewrite ascii_lower_idem, IH.
Qed.

(** ** class Requirements *)

Lemma Requirements_contains_true self key :
  Requirements_contains self key = true <-> key ∈ _keys self.
Proof. unfold Requirements_contains. apply bool_decide_eq_true. Qed.

Lemma Requirements_contains_false self key :
  Requirements_contains self key = false <-> key ∉ _keys self.
Proof. unfold Requirements_contains. apply bool_decide_eq_false. Qed.

Lemma Requirements_wf_elem_of self key :
  Requirements_wf self -> (key ∈ _keys self <-> is_Some (_dict self !! key)).
Proof.
  intros [_ Hdom]. rewrite <- elem_of_dom, Hdom. by rewrite elem_of_list_to_set.
Qed.

Lemma Requirements_wf_ok self : Requirements_wf self -> Requirements_ok self.
Proof.
  intros Hwf. apply Forall_forall. intros key Hkey.
  by apply Requirements_wf_elem_of.
Qed.

Lemma Requirements_setitem_wf self key value :
  Requirements_wf self -> Requirements_wf (Requirements_setitem self key value).
Proof.
  intros [Hnd Hdom]. unfold Requirements_wf, Requirements_setitem. simpl.
  rewrite dom_insert_L, Hdom.
  destruct (Requirements_contains self key) eqn:Hc.
  - apply Requirements_contains_true in Hc. split; [done|].
    apply (elem_of_list_to_set (C:=gset string)) in Hc. set_solver.
  - apply Requirements_contains_false in Hc. split.
    + apply NoDup_app. repeat split; [done| |apply NoDup_singleton].
      intros x Hx Hx'. apply list_elem_of_singleton in Hx' as ->. done.
    + rewrite list_to_set_app_L, list_to_set_singleton_L. set_solver.
Qed.

Lemma mapM_outcome_Return {A B} (f : A -> outcome B) l vs :
  mapM_outcome f l = Return vs <-> Forall2 (fun x y => f x = Return y) l vs.
Proof.
  revert vs. induction l as [|x l IH]; intros vs; simpl.
  - split; [intros [= <-]; constructor|]. by inversion 1.
  - split.
    + destruct (f x) as [y|] eqn:Hx; simpl; [|done].
      destruct (mapM_outcome f l) as [ys|] eqn:Hl; simpl; [|done].
      intros [= <-]. constructor; [done|]. by apply IH.
    + inversion 1 as [|? y ? ys Hx Hl]; subst. rewrite Hx. simpl.
      apply IH in Hl. rewrite Hl. done.
Qed.

(** X1.  After [self[key] = value], [key] is contained and maps to
    [value], and no other key is affected, in [__contains__] or in
    [__getitem__]. *)
Theorem Requirements_setitem_getitem self key value :
  Requirements_getitem (Requirements_setitem self key value) key = Return value
  /\ Requirements_contains (Requirements_setitem self key value) key = true
  /\ forall key',
       key' <> key ->
       Requirements_getitem (Requirements_setitem self key value) key'
       = Requirements_getitem self key'
       /\ Requirements_contains (Requirements_setitem self key value) key'
          = Requirements_contains self key'.
Proof.
  unfold Requirements_getitem, Requirements_setitem. simpl. split; [|split].
  - by rewrite lookup_insert_eq.
  - apply Requirements_contains_true. simpl.
    destruct (Requirements_contains self key) eqn:Hc.
    + by apply Requirements_contains_true.
    + apply elem_of_app. right. by apply list_elem_of_singleton.
  - intros key' Hne. rewrite lookup_insert_ne by done. split; [done|].
    unfold Requirements_contains at 1 3. simpl. apply bool_decide_ext.
    destruct (Requirements_contains self key); [done|].
    rewrite elem_of_app, list_elem_of_singleton. naive_solver.
Qed.

(** X2.  [values()] follows the order of first insertion.  On a
    well-formed registry it returns one value per key; assigning to a new
    key appends the value at the end, assigning to a key that is there
    replaces its value in place, and the registry stays well formed. *)
Theorem Requirements_setitem_values self key value :
  Requirements_wf self ->
  exists values,
    Requirements_values self = Return values
    /\ length values = length (_keys self)
    /\ Requirements_wf (Requirements_setitem self key value)
    /\ (key ∉ _keys self ->
        Requirements_values (Requirements_setitem self key value)
        = Return (values ++ [value]))
    /\ (forall i, _keys self !! i = Some key ->
        Requirements_values (Requirements_setitem self key value)
        = Return (<[i := value]> values)).
Proof.
  intros Hwf.
  destruct (Requirements_values_ok self (Requirements_wf_ok _ Hwf)) as [values Hv].
  exists values. split; [done|].
  pose proof Hv as Hall. unfold Requirements_values in Hall.
  apply mapM_outcome_Return in Hall.
  pose proof (Forall2_length _ _ _ Hall) as Hlen.
  split; [done|]. split; [by apply Requirements_setitem_wf|].
  assert (Hother : forall k, k <> key ->
            Requirements_getitem (Requirements_setitem self key value) k
            = Requirements_getitem self k).
  { intros k Hk. unfold Requirements_getitem, Requirements_setitem. simpl.
    by rewrite lookup_insert_ne. }
  assert (Hkey : Requirements_getitem (Requirements_setitem self key value) key
                 = Return value).
  { unfold Requirements_getitem, Requirements_setitem. simpl.
    by rewrite lookup_insert_eq. }
  split.
  - intros Hnew. unfold Requirements_values. apply mapM_outcome_Return.
    unfold Requirements_setitem at 2. simpl.
    rewrite (proj2 (Requirements_contains_false _ _) Hnew).
    apply Forall2_app; [|by repeat constructor].
    apply Forall2_same_length_lookup. split; [done|].
    intros i k v Hk Hvi. rewrite Hother.
    + apply Forall2_same_length_lookup in Hall as [_ Hall]. by eapply Hall.
    + intros ->. apply Hnew. by eapply list_elem_of_lookup_2.
  - intros i Hi. unfold Requirements_values. apply mapM_outcome_Return.
    unfold Requirements_setitem at 2. simpl.
    rewrite (proj2 (Requirements_contains_true _ _) (list_elem_of_lookup_2 _ _ _ Hi)).
    apply Forall2_same_length_lookup. split; [by rewrite length_insert|].
    intros j k v Hk Hvj. destruct (decide (i = j)) as [<-|Hne].
    + assert (k = key) as -> by congruence.
      rewrite list_lookup_insert_eq in Hvj by (rewrite <- Hlen; by eapply lookup_lt_Some).
      by injection Hvj as <-.
    + rewrite list_lookup_insert_ne in Hvj by done.
      rewrite Hother.
      * apply Forall2_same_length_lookup in Hall as [_ Hall]. by eapply Hall.
      * intros ->. apply Hne. destruct Hwf as [Hnd _]. by eapply NoDup_lookup.
Qed.

(** ** Lookup by name *)

Lemma registry_ok_alias self alias real_name :
  registry_ok self ->
  requirement_aliases self !! alias = Some real_name ->
  real_name ∈ _keys (requirements self)
  /\ alias = lower real_name
  /\ alias ∉ _keys (requirements self).
Proof. intros (_ & Hal & _) Ha. exact (Hal _ _ Ha). Qed.

Lemma registry_ok_key self key :
  registry_ok self ->
  key ∈ _keys (requirements self) ->
  lower key <> key ->
  requirement_aliases self !! lower key = Some key.
Proof. intros (_ & _ & Hk) Hin. by eapply Forall_forall in Hk. Qed.

Lemma registry_ok_getitem self key :
  registry_ok self ->
  key ∈ _keys (requirements self) ->
  exists r, _dict (requirements self) !! key = Some r
            /\ Requirements_getitem (requirements self) key = Return r.
Proof.
  intros (Hwf & _) Hin. apply (Requirements_wf_elem_of _ _ Hwf) in Hin as [r Hr].
  exists r. split; [done|]. unfold Requirements_getitem. by rewrite Hr.
Qed.

(** The names that differ from [name] in case only have no key in common
    with it: one package, one key. *)
Lemma registry_ok_key_unique self k1 k2 :
  registry_ok self ->
  k1 ∈ _keys (requirements self) ->
  k2 ∈ _keys (requirements self) ->
  lower k1 = lower k2 ->
  k1 = k2.
Proof.
  intros Hok H1 H2 Hl.
  destruct (decide (lower k1 = k1)) as [E1|N1], (decide (lower k2 = k2)) as [E2|N2].
  - congruence.
  - pose proof (registry_ok_key _ _ Hok H2 N2) as Ha.
    apply (registry_ok_alias _ _ _ Hok) in Ha as (_ & _ & Hnot).
    exfalso. apply Hnot. by rewrite <- Hl, E1.
  - pose proof (registry_ok_key _ _ Hok H1 N1) as Ha.
    apply (registry_ok_alias _ _ _ Hok) in Ha as (_ & _ & Hnot).
    exfalso. apply Hnot. by rewrite Hl, E2.
  - pose proof (registry_ok_key _ _ Hok H1 N1) as Ha1.
    pose proof (registry_ok_key _ _ Hok H2 N2) as Ha2.
    rewrite Hl in Ha1. congruence.
Qed.

Lemma get_requirement_sound self project_name r :
  registry_ok self ->
  get_requirement self project_name = Return r ->
  exists key,
    key ∈ _keys (requirements self)
    /\ lower key = lower project_name
    /\ _dict (requirements self) !! key = Some r.
Proof.
  intros Hok. unfold get_requirement.
  assert (Hget : forall key, Requirements_getitem (requirements self) key = Return r ->
                             _dict (requirements self) !! key = Some r).
  { intros key. unfold Requirements_getitem.
    destruct (_dict _ !! key); [by intros [= ->]|done]. }
  destruct (Requirements_contains _ project_name) eqn:H1.
  { intros Hr%Hget. apply Requirements_contains_true in H1. eauto. }
  destruct (requirement_aliases self !! project_name) as [real|] eqn:H2.
  { intros Hr%Hget. apply (registry_ok_alias _ _ _ Hok) in H2 as (Hin & -> & _).
    exists real. by rewrite lower_idem. }
  destruct (Requirements_contains _ (lower project_name)) eqn:H3.
  { intros Hr%Hget. apply Requirements_contains_true in H3.
    exists (lower project_name). by rewrite lower_idem. }
  destruct (requirement_aliases self !! lower project_name) as [real|] eqn:H4; [|done].
  intros Hr%Hget. apply (registry_ok_alias _ _ _ Hok) in H4 as (Hin & Hl & _).
  exists real. eauto.
Qed.

Lemma get_requirement_complete self project_name key r :
  registry_ok self ->
  key ∈ _keys (requirements self) ->
  lower key = lower project_name ->
  _dict (requirements self) !! key = Some r ->
  get_requirement self project_name = Return r.
Proof.
  intros Hok Hin Hl Hr. unfold get_requirement.
  assert (Hkey : Requirements_getitem (requirements self) key = Return r).
  { unfold Requirements_getitem. by rewrite Hr. }
  destruct (Requirements_contains _ project_name) eqn:H1.
  { apply Requirements_contains_true in H1.
    by rewrite <- (registry_ok_key_unique _ _ _ Hok Hin H1 Hl). }
  destruct (requirement_aliases self !! project_name) as [real|] eqn:H2.
  { apply (registry_ok_alias _ _ _ Hok) in H2 as (Hreal & Hp & _).
    rewrite <- (registry_ok_key_unique _ key real Hok Hin Hreal); [done|].
    by rewrite Hl, Hp, lower_idem. }
  destruct (Requirements_contains _ (lower project_name)) eqn:H3.
  { apply Requirements_contains_true in H3.
    rewrite <- (registry_ok_key_unique _ key _ Hok Hin H3); [done|].
    by rewrite lower_idem. }
  destruct (requirement_aliases self !! lower project_name) as [real|] eqn:H4.
  { apply (registry_ok_alias _ _ _ Hok) in H4 as (Hreal & Hp & _).
    rewrite <- (registry_ok_key_unique _ key real Hok Hin Hreal); [done|].
    congruence. }
  exfalso. apply Requirements_contains_false in H3.
  destruct (decide (lower key = key)) as [E|N].
  - apply H3. by rewrite <- Hl, E.
  - pose proof (registry_ok_key _ _ Hok Hin N) as Ha. congruence.
Qed.

Lemma get_requirement_Raise self project_name e :
  registry_ok self ->
  get_requirement self project_name = Raise e ->
  e = KeyError project_name.
Proof.
  intros Hok. unfold get_requirement.
  destruct (Requirements_contains _ project_name) eqn:H1.
  { apply Requirements_contains_true in H1.
    destruct (registry_ok_getitem _ _ Hok H1) as (r & _ & ->). done. }
  destruct (requirement_aliases self !! project_name) as [real|] eqn:H2.
  { apply (registry_ok_alias _ _ _ Hok) in H2 as (Hreal & _).
    destruct (registry_ok_getitem _ _ Hok Hreal) as (r & _ & ->). done. }
  destruct (Requirements_contains _ (lower project_name)) eqn:H3.
  { apply Requirements_contains_true in H3.
    destruct (registry_ok_getitem _ _ Hok H3) as (r & _ & ->). done. }
  destruct (requirement_aliases self !! lower project_name) as [real|] eqn:H4.
  { apply (registry_ok_alias _ _ _ Hok) in H4 as (Hreal & _).
    destruct (registry_ok_getitem _ _ Hok Hreal) as (r & _ & ->). done. }
  by intros [= <-].
Qed.

(** X3.  In a registry kept by [add_requirement], [get_requirement] finds
    an object exactly when some key equals the name up to case, and then
    returns the object of that key; otherwise it raises [KeyError] with
    the name asked for. *)
Theorem get_requirement_by_lowercase self project_name :
  registry_ok self ->
  (forall r,
     get_requirement self project_name = Return r
     <-> exists key,
           key ∈ _keys (requirements self)
           /\ lower key = lower project_name
           /\ _dict (requirements self) !! key = Some r)
  /\ ((forall key, key ∈ _keys (requirements self) -> lower key <> lower project_name)
      <-> get_requirement self project_name = Raise (KeyError project_name)).
Proof.
  intros Hok. split.
  - intros r. split; [by apply get_requirement_sound|].
    intros (key & Hin & Hl & Hr). by eapply get_requirement_complete.
  - split.
    + intros Hnone.
      destruct (get_requirement self project_name) as [r|e] eqn:Hget.
      * apply (get_requirement_sound _ _ _ Hok) in Hget as (key & Hin & Hl & _).
        by destruct (Hnone key Hin).
      * by apply (get_requirement_Raise _ _ _ Hok) in Hget as ->.
    + intros Hraise key Hin Hl.
      destruct (registry_ok_getitem _ _ Hok Hin) as (r & Hr & _).
      rewrite (get_requirement_complete _ _ _ _ Hok Hin Hl Hr) in Hraise. done.
Qed.

(** X4.  Lookup ignores case: two names that have the same lowercase form
    find the same object, or both find none. *)
Theorem get_requirement_case_insensitive self name1 name2 r :
  registry_ok self ->
  lower name1 = lower name2 ->
  get_requirement self name1 = Return r ->
  get_requirement self name2 = Return r.
Proof.
  intros Hok Hl Hget.
  apply (get_requirement_sound _ _ _ Hok) in Hget as (key & Hin & Hk & Hr).
  eapply get_requirement_complete; [done|exact Hin| |exact Hr]. congruence.
Qed.

(** X5.  [has_requirement] never raises on a registry kept by
    [add_requirement], and answers true exactly when [get_requirement]
    finds an object that is not a constraint. *)
Theorem has_requirement_get_requirement h self project_name :
  registry_ok self ->
  exists b,
    has_requirement h self project_name = Return b
    /\ (b = true <->
        exists r, get_requirement self project_name = Return r
                  /\ constraint (h r) = false).
Proof.
  intros Hok. unfold has_requirement.
  destruct (Requirements_contains _ (lower project_name)) eqn:H1.
  - apply Requirements_contains_true in H1.
    destruct (registry_ok_getitem _ _ Hok H1) as (r & Hr & ->). simpl.
    assert (Hget : get_requirement self project_name = Return r).
    { eapply get_requirement_complete; [done|exact H1|apply lower_idem|exact Hr]. }
    destruct (constraint (h r)) eqn:Hc; simpl.
    + destruct (requirement_aliases self !! lower project_name) as [real|] eqn:H2.
      { by apply (registry_ok_alias _ _ _ Hok) in H2 as (_ & _ & []). }
      exists false. split; [done|]. split; [done|].
      intros (r' & Hr' & Hc'). congruence.
    + exists true. split; [done|]. split; [|done]. eauto.
  - simpl. apply Requirements_contains_false in H1.
    destruct (requirement_aliases self !! lower project_name) as [real|] eqn:H2.
    + apply (registry_ok_alias _ _ _ Hok) in H2 as (Hreal & Hl & _).
      destruct (registry_ok_getitem _ _ Hok Hreal) as (r & Hr & ->). simpl.
      assert (Hget : get_requirement self project_name = Return r).
      { eapply get_requirement_complete; [done|exact Hreal|done|exact Hr]. }
      exists (negb (constraint (h r))). split; [done|].
      rewrite negb_true_iff. split; [eauto|].
      intros (r' & Hr' & Hc'). congruence.
    + exists false. split; [done|]. split; [done|].
      intros (r & Hget & _). exfalso.
      apply (get_requirement_sound _ _ _ Hok) in Hget as (key & Hin & Hl & _).
      destruct (decide (lower key = key)) as [E|N].
      * apply H1. by rewrite <- Hl, E.
      * pose proof (registry_ok_key _ _ Hok Hin N) as Ha. congruence.
Qed.

(** ** add_requirement, whatever the path taken *)

Lemma record_dependency_cases h self parent_req_name r result :
  record_dependency h self parent_req_name r result = (h, self, Return result)
  \/ (exists parent_name e,
        nonempty parent_req_name = Some parent_name
        /\ get_requirement self parent_name = Raise e
        /\ record_dependency h self parent_req_name r result = (h, self, Raise e))
  \/ (exists parent_name parent_req,
        nonempty parent_req_name = Some parent_name
        /\ get_requirement self parent_name = Return parent_req
        /\ record_dependency h self parent_req_name r result
           = (h,
              set_dependencies self
                (<[parent_req := (_dependencies self !!! parent_req) ++ [r]]>
                   (_dependencies self)),
              Return result)).
Proof.
  unfold record_dependency. destruct (nonempty parent_req_name) as [p|]; [|by left].
  destruct (get_requirement self p) as [pr|e] eqn:Hp; right; [right|left]; eauto.
Qed.

Lemma add_requirement_paths match_markers Wheel_supported h self install_req
    parent_req_name extras_requested :
  add_requirement_path h self install_req parent_req_name
    (add_requirement match_markers Wheel_supported h self install_req parent_req_name
       extras_requested).
Proof.
  unfold add_requirement.
  destruct (match_markers _ _); simpl; [|constructor].
  destruct (unsupported_wheel _ _); [constructor|].
  destruct (nonempty _) as [n|] eqn:Hn; [|by constructor].
  simpl. rewrite double_requirement_with_settings.
  destruct (double_requirement _ _ _ _) eqn:Hd.
  { constructor. unfold double_requirement in Hd. by destruct parent_req_name. }
  destruct (get_requirement self n) as [existing|e] eqn:Hget.
  - rewrite fn_lookup_insert.
    change (constraint (with_settings self parent_req_name (h install_req)))
      with (constraint (h install_req)).
    destruct (negb (constraint (h install_req)) && _) eqn:Hc.
    + destruct (link_conflict _ _); [by econstructor|].
      apply andb_true_iff in Hc as [Hi He]. apply negb_true_iff in Hi.
      assert (install_req <> existing) as Hne.
      { intros ->. rewrite fn_lookup_insert in He.
        change (constraint (with_settings self parent_req_name (h existing)))
          with (constraint (h existing)) in He. congruence. }
      rewrite fn_lookup_insert_ne in He |- * by done.
      by eapply path_promote.
    + by eapply path_merge.
  - by eapply path_new.
Qed.

Lemma with_requirement_keys self n r :
  n ∉ _keys (requirements self) ->
  _keys (requirements (with_requirement self n r)) = _keys (requirements self) ++ [n]
  /\ _dict (requirements (with_requirement self n r))
     = <[n := r]> (_dict (requirements self)).
Proof.
  intros Hn. unfold with_requirement.
  assert (Requirements_contains (requirements self) n = false) as Hc
    by by apply Requirements_contains_false.
  destruct (bool_decide _); simpl; by rewrite Hc.
Qed.

Lemma get_requirement_Raise_not_key self n e :
  get_requirement self n = Raise e ->
  registry_ok self ->
  forall key, key ∈ _keys (requirements self) -> lower key <> lower n.
Proof.
  intros Hget Hok key Hin Hl.
  destruct (registry_ok_getitem _ _ Hok Hin) as (r & Hr & _).
  rewrite (get_requirement_complete _ _ _ _ Hok Hin Hl Hr) in Hget. done.
Qed.

Lemma with_requirement_ok self n r e :
  registry_ok self ->
  get_requirement self n = Raise e ->
  registry_ok (with_requirement self n r).
Proof.
  intros Hok Hget.
  pose proof (get_requirement_Raise_not_key _ _ _ Hget Hok) as Hfresh.
  assert (Hn : n ∉ _keys (requirements self)).
  { intros Hin. by apply (Hfresh n Hin). }
  assert (Hln : lower n ∉ _keys (requirements self)).
  { intros Hin. apply (Hfresh _ Hin). apply lower_idem. }
  assert (Hal : forall key, lower key = lower n -> requirement_aliases self !! key = None).
  { intros key Hk. destruct (requirement_aliases self !! key) as [real|] eqn:Ha; [|done].
    apply (registry_ok_alias _ _ _ Hok) in Ha as (Hreal & -> & _).
    destruct (Hfresh real Hreal). by rewrite <- Hk, lower_idem. }
  destruct (with_requirement_keys self n r Hn) as [Hkeys Hdict].
  destruct Hok as (Hwf & Halias & Hkey).
  assert (Haliases : requirement_aliases (with_requirement self n r)
                     = if bool_decide (lower n ≠ n)
                       then <[lower n := n]> (requirement_aliases self)
                       else requirement_aliases self).
  { unfold with_requirement. by destruct (bool_decide _). }
  split; [|split].
  - unfold Requirements_wf. rewrite Hkeys, Hdict. destruct Hwf as [Hnd Hdom]. split.
    + apply NoDup_app. repeat split; [done| |apply NoDup_singleton].
      intros x Hx Hx'. apply list_elem_of_singleton in Hx' as ->. done.
    + rewrite dom_insert_L, Hdom, list_to_set_app_L, list_to_set_singleton_L. set_solver.
  - rewrite Haliases, Hkeys. intros alias real Ha.
    assert (Hold : requirement_aliases self !! alias = Some real ->
              real ∈ _keys (requirements self) ++ [n]
              /\ alias = lower real
              /\ alias ∉ _keys (requirements self) ++ [n]).
    { intros Ha'. pose proof Ha' as Ha''.
      apply Halias in Ha' as (Hreal & -> & Hnot).
      split; [apply elem_of_app; by left|]. split; [done|].
      intros [?|Heq%list_elem_of_singleton]%elem_of_app; [done|].
      rewrite (Hal (lower real)) in Ha''; [done|]. by rewrite Heq. }
    destruct (bool_decide (lower n ≠ n)) eqn:Hb; [|by apply Hold].
    apply bool_decide_eq_true in Hb.
    destruct (decide (lower n = alias)) as [<-|Hne].
    + rewrite lookup_insert_eq in Ha. injection Ha as <-.
      split; [apply elem_of_app; right; by apply list_elem_of_singleton|].
      split; [done|].
      intros [?|Heq%list_elem_of_singleton]%elem_of_app; done.
    + rewrite lookup_insert_ne in Ha by done. by apply Hold.
  - rewrite Haliases, Hkeys. apply Forall_app. split.
    + apply Forall_forall. intros key Hin Hlow.
      eapply Forall_forall in Hkey; [|exact Hin]. specialize (Hkey Hlow).
      destruct (bool_decide (lower n ≠ n)); [|done].
      rewrite lookup_insert_ne; [done|]. intros Heq.
      rewrite (Hal (lower key)) in Hkey; [done|]. by rewrite lower_idem.
    + constructor; [|constructor]. intros Hlow.
      rewrite bool_decide_eq_true_2 by done. by rewrite lookup_insert_eq.
Qed.

Lemma record_dependency_registry h self parent_req_name r result :
  requirements (record_dependency h self parent_req_name r result).1.2
  = requirements self
  /\ requirement_aliases (record_dependency h self parent_req_name r result).1.2
     = requirement_aliases self
  /\ unnamed_requirements (record_dependency h self parent_req_name r result).1.2
     = unnamed_requirements self
  /\ reqs_to_cleanup (record_dependency h self parent_req_name r result).1.2
     = reqs_to_cleanup self
  /\ (record_dependency h self parent_req_name r result).1.1 = h.
Proof.
  destruct (record_dependency_cases h self parent_req_name r result)
    as [->|[(p & e & _ & _ & ->)|(p & pr & _ & _ & ->)]]; done.
Qed.

Lemma registry_ok_ext self self' :
  requirements self' = requirements self ->
  requirement_aliases self' = requirement_aliases self ->
  registry_ok self -> registry_ok self'.
Proof. unfold registry_ok. by intros -> ->. Qed.

Lemma get_requirement_ext self self' project_name :
  requirements self' = requirements self ->
  requirement_aliases self' = requirement_aliases self ->
  get_requirement self' project_name = get_requirement self project_name.
Proof. unfold get_requirement. by intros -> ->. Qed.

(** X6.  [add_requirement] keeps the registry and its aliases in order,
    on every path, errors included: the keys stay distinct, every alias is
    the lowercase form of a registered name that is not lowercase, and
    every such name has its alias. *)
Theorem add_requirement_registry_ok match_markers Wheel_supported h self install_req
    parent_req_name extras_requested :
  registry_ok self ->
  registry_ok
    (add_requirement match_markers Wheel_supported h self install_req parent_req_name
       extras_requested).1.2.
Proof.
  intros Hok.
  destruct (add_requirement_paths match_markers Wheel_supported h self install_req
              parent_req_name extras_requested); simpl; try done.
  - destruct (record_dependency_registry
                (<[install_req := with_settings self parent_req_name (h install_req)]> h)
                (with_requirement self n install_req) parent_req_name install_req
                [install_req]) as (Hr & Ha & _).
    eapply registry_ok_ext; [exact Hr|exact Ha|]. by eapply with_requirement_ok.
  - match goal with |- registry_ok (record_dependency ?a ?b ?c ?d ?e).1.2 =>
      destruct (record_dependency_registry a b c d e) as (Hr & Ha & _) end.
    by eapply registry_ok_ext.
  - match goal with |- registry_ok (record_dependency ?a ?b ?c ?d ?e).1.2 =>
      destruct (record_dependency_registry a b c d e) as (Hr & Ha & _) end.
    by eapply registry_ok_ext.
Qed.

Lemma registered_iff self r :
  registered self r <-> exists key, _dict (requirements self) !! key = Some r.
Proof.
  unfold registered. rewrite list_elem_of_fmap. split.
  - intros ([key r'] & -> & Hin). exists key. by apply elem_of_map_to_list.
  - intros (key & Hkey). exists (key, r). split; [done|]. by apply elem_of_map_to_list.
Qed.

Lemma get_requirement_registered self project_name r :
  get_requirement self project_name = Return r -> registered self r.
Proof.
  assert (Hget : forall key, Requirements_getitem (requirements self) key = Return r ->
                             registered self r).
  { intros key. unfold Requirements_getitem.
    destruct (_dict _ !! key) eqn:Hk; [|done]. intros [= ->].
    apply registered_iff. eauto. }
  unfold get_requirement. repeat case_match; eauto; done.
Qed.

Lemma with_requirement_registered self n r :
  n ∉ dom (_dict (requirements self)) ->
  n ∉ _keys (requirements self) ->
  registered (with_requirement self n r) r
  /\ forall x, registered self x -> registered (with_requirement self n r) x.
Proof.
  intros Hdom Hkeys. destruct (with_requirement_keys self n r Hkeys) as [_ Hdict].
  split.
  - apply registered_iff. exists n. rewrite Hdict. apply lookup_insert_eq.
  - intros x (key & Hkey)%registered_iff. apply registered_iff. exists key.
    rewrite Hdict, lookup_insert_ne; [done|]. intros <-.
    apply not_elem_of_dom in Hdom. congruence.
Qed.

Lemma with_requirement_dependencies self n r :
  _dependencies (with_requirement self n r) = _dependencies self
  /\ unnamed_requirements (with_requirement self n r) = unnamed_requirements self
  /\ reqs_to_cleanup (with_requirement self n r) = reqs_to_cleanup self.
Proof. unfold with_requirement. by destruct (bool_decide _). Qed.

Lemma record_dependency_ok h self parent_req_name r result :
  dependencies_ok self ->
  registered self r ->
  dependencies_ok (record_dependency h self parent_req_name r result).1.2.
Proof.
  intros Hok Hr.
  destruct (record_dependency_cases h self parent_req_name r result)
    as [->|[(p & e & _ & _ & ->)|(p & pr & _ & Hp & ->)]]; [done..|].
  simpl. unfold dependencies_ok, registered in *. simpl.
  apply map_Forall_insert_2; [|done]. split.
  - by apply get_requirement_registered in Hp.
  - apply Forall_app. split; [|by repeat constructor].
    rewrite lookup_total_alt.
    destruct (_dependencies self !! pr) as [deps|] eqn:Hd; simpl; [|constructor].
    by apply Hok in Hd as [_ ?].
Qed.

(** X7.  [add_requirement] records edges between registered objects only:
    when every parent and every dependency of the graph is an object of
    the registry before a call, it is so after it. *)
Theorem add_requirement_dependencies_ok match_markers Wheel_supported h self install_req
    parent_req_name extras_requested :
  registry_ok self ->
  dependencies_ok self ->
  dependencies_ok
    (add_requirement match_markers Wheel_supported h self install_req parent_req_name
       extras_requested).1.2.
Proof.
  intros Hreg Hok.
  destruct (add_requirement_paths match_markers Wheel_supported h self install_req
              parent_req_name extras_requested); simpl; try done.
  - pose proof (get_requirement_Raise_not_key _ _ _ H0 Hreg) as Hfresh.
    assert (Hn : n ∉ _keys (requirements self)) by (intros Hin; by apply (Hfresh n Hin)).
    assert (Hd : n ∉ dom (_dict (requirements self))).
    { destruct Hreg as ([_ ->] & _). by rewrite elem_of_list_to_set. }
    destruct (with_requirement_registered self n install_req Hd Hn) as [Hnew Hold].
    apply record_dependency_ok; [|done].
    unfold dependencies_ok.
    rewrite (proj1 (with_requirement_dependencies self n install_req)).
    intros p deps Hp. apply Hok in Hp as [Hp Hdeps]. split; [by apply Hold|].
    eapply Forall_impl; [exact Hdeps|]. exact Hold.
  - apply record_dependency_ok; [done|]. by eapply get_requirement_registered.
  - apply record_dependency_ok; [done|]. by eapply get_requirement_registered.
Qed.

Lemma record_dependency_grows h self parent_req_name r result p :
  (_dependencies self !!! p)
    `prefix_of` (_dependencies (record_dependency h self parent_req_name r result).1.2
                   !!! p).
Proof.
  destruct (record_dependency_cases h self parent_req_name r result)
    as [->|[(pn & e & _ & _ & ->)|(pn & pr & _ & Hp & ->)]]; [done..|].
  simpl. destruct (decide (pr = p)) as [->|Hne].
  - rewrite lookup_total_insert_eq. by eexists.
  - by rewrite lookup_total_insert_ne.
Qed.

Lemma with_requirement_lookup self n r e project_name x :
  registry_ok self ->
  get_requirement self n = Raise e ->
  get_requirement self project_name = Return x ->
  get_requirement (with_requirement self n r) project_name = Return x.
Proof.
  intros Hok Hraise Hget.
  pose proof (get_requirement_Raise_not_key _ _ _ Hraise Hok) as Hfresh.
  assert (Hn : n ∉ _keys (requirements self)) by (intros Hin; by apply (Hfresh n Hin)).
  destruct (with_requirement_keys self n r Hn) as [Hkeys Hdict].
  apply (get_requirement_sound _ _ _ Hok) in Hget as (key & Hin & Hl & Hkey).
  eapply get_requirement_complete; [by eapply with_requirement_ok| |exact Hl|].
  - rewrite Hkeys. apply elem_of_app. by left.
  - rewrite Hdict, lookup_insert_ne; [done|]. by intros <-.
Qed.

(** X8.  [add_requirement] only adds: on every path, the keys of the
    registry before the call are the first keys after it, a name that
    resolved resolves to the same object, each requirement's recorded
    dependencies are the first of its dependencies afterwards, and the
    unnamed and cleanup lists are extended at the end. *)
Theorem add_requirement_only_adds match_markers Wheel_supported h self install_req
    parent_req_name extras_requested :
  registry_ok self ->
  _keys (requirements self)
    `prefix_of` _keys (requirements
                         (add_requirement match_markers Wheel_supported h self
                            install_req parent_req_name extras_requested).1.2)
  /\ (forall project_name r,
        get_requirement self project_name = Return r ->
        get_requirement
          (add_requirement match_markers Wheel_supported h self install_req
             parent_req_name extras_requested).1.2 project_name
        = Return r)
  /\ (forall p,
        (_dependencies self !!! p)
          `prefix_of` (_dependencies
                         (add_requirement match_markers Wheel_supported h self
                            install_req parent_req_name extras_requested).1.2 !!! p))
  /\ unnamed_requirements self
       `prefix_of` unnamed_requirements
                     (add_requirement match_markers Wheel_supported h self install_req
                        parent_req_name extras_requested).1.2
  /\ reqs_to_cleanup self
       `prefix_of` reqs_to_cleanup
                     (add_requirement match_markers Wheel_supported h self install_req
                        parent_req_name extras_requested).1.2.
Proof.
  intros Hok.
  destruct (add_requirement_paths match_markers Wheel_supported h self install_req
              parent_req_name extras_requested); simpl.
  1-4,6: repeat split; try done; try by eexists.
  - pose proof (get_requirement_Raise_not_key _ _ _ H0 Hok) as Hfresh.
    assert (Hn : n ∉ _keys (requirements self)) by (intros Hin; by apply (Hfresh n Hin)).
    destruct (with_requirement_keys self n install_req Hn) as [Hkeys _].
    destruct (with_requirement_dependencies self n install_req) as (Hd & Hu & Hc).
    match goal with |- context [record_dependency ?a ?b ?c ?d ?e] =>
      destruct (record_dependency_registry a b c d e) as (Hr & Ha & Hu' & Hc' & _);
      pose proof (record_dependency_grows a b c d e) as Hg end.
    rewrite Hr, Hu', Hc', Hkeys, Hu, Hc. repeat split; try done; try by eexists.
    + intros project_name r Hget. rewrite (get_requirement_ext _ _ _ Hr Ha).
      by eapply with_requirement_lookup.
    + intros p. specialize (Hg p). by rewrite Hd in Hg.
  - match goal with |- context [record_dependency ?a ?b ?c ?d ?e] =>
      destruct (record_dependency_registry a b c d e) as (Hr & Ha & Hu' & Hc' & _);
      pose proof (record_dependency_grows a b c d e) as Hg end.
    rewrite Hr, Hu', Hc'. repeat split; try done.
    intros project_name r Hget. by rewrite (get_requirement_ext _ _ _ Hr Ha).
  - match goal with |- context [record_dependency ?a ?b ?c ?d ?e] =>
      destruct (record_dependency_registry a b c d e) as (Hr & Ha & Hu' & Hc' & _);
      pose proof (record_dependency_grows a b c d e) as Hg end.
    rewrite Hr, Hu', Hc'. repeat split; try done.
    intros project_name r Hget. by rewrite (get_requirement_ext _ _ _ Hr Ha).
Qed.



(** X10.  What [add_requirement] never does to an object, on any path: it
    never changes its name, specifier, link, [satisfied_by],
    [conflicts_with] or [install_succeeded]; it never turns a requirement
    to install back into a constraint, nor changes the extras of one; and
    it writes the settings of the set on the incoming object only. *)
Theorem add_requirement_objects match_markers Wheel_supported h self install_req
    parent_req_name extras_requested r :
  let h' :=
    (add_requirement match_markers Wheel_supported h self install_req parent_req_name
       extras_requested).1.1 in
  same_identity (h' r) (h r)
  /\ (constraint (h r) = false ->
      constraint (h' r) = false /\ extras (h' r) = extras (h r))
  /\ (r <> install_req ->
      use_user_site (h' r) = use_user_site (h r)
      /\ target_dir (h' r) = target_dir (h r)
      /\ pycompile (h' r) = pycompile (h r)
      /\ is_direct (h' r) = is_direct (h r)).
Proof.
  set (h1 := <[install_req := with_settings self parent_req_name (h install_req)]> h).
  assert (H1 : same_identity (h1 r) (h r)
               /\ constraint (h1 r) = constraint (h r)
               /\ extras (h1 r) = extras (h r)
               /\ (r <> install_req -> h1 r = h r)).
  { unfold h1. destruct (decide (install_req = r)) as [<-|Hne].
    - rewrite fn_lookup_insert. by repeat split.
    - rewrite fn_lookup_insert_ne by done. by repeat split. }
  destruct H1 as (Hid & Hc & He & Hfar).
  destruct (add_requirement_paths match_markers Wheel_supported h self install_req
              parent_req_name extras_requested); simpl.
  all: fold h1.
  all: try match goal with |- context [(record_dependency ?a ?b ?c ?d ?e).1.1] =>
         rewrite (proj2 (proj2 (proj2 (proj2 (record_dependency_registry a b c d e)))))
       end.
  1-2: by repeat split.
  1-4,6: (split; [exact Hid|]; split; [intros; split; congruence|];
          intros Hne; by rewrite (Hfar Hne)).
  assert (existing <> install_req) as Hne by congruence.
  destruct (decide (existing = r)) as [<-|Hr].
  - rewrite fn_lookup_insert. split; [|split].
    + unfold h1 in Hid. by rewrite fn_lookup_insert_ne in Hid by done.
    + congruence.
    + by repeat split.
  - rewrite fn_lookup_insert_ne by done.
    split; [exact Hid|]. split; [intros; split; congruence|].
    intros Hne'. by rewrite (Hfar Hne').
Qed.

(** X11.  How [add_requirement] fails.  An [InstallationError] leaves the
    registry, the aliases, the edges and the unnamed requirements as they
    were.  Any other error is the error of the lookup of the parent, and
    by then the requirement has been taken in: its name resolves in the
    set that the failed call leaves, and no edge has been added. *)
Theorem add_requirement_errors match_markers Wheel_supported h self install_req
    parent_req_name extras_requested h' self' e :
  add_requirement match_markers Wheel_supported h self install_req parent_req_name
    extras_requested
  = (h', self', Raise e) ->
  (exists msg,
     e = InstallationError msg
     /\ requirements self' = requirements self
     /\ requirement_aliases self' = requirement_aliases self
     /\ _dependencies self' = _dependencies self
     /\ unnamed_requirements self' = unnamed_requirements self)
  \/ (is_KeyError e
      /\ _dependencies self' = _dependencies self
      /\ exists parent_name n r,
           nonempty parent_req_name = Some parent_name
           /\ get_requirement self' parent_name = Raise e
           /\ nonempty (name (h install_req)) = Some n
           /\ get_requirement self' n = Return r).
Proof.
  assert (Hrec : forall hx sx r result n,
            nonempty (name (h install_req)) = Some n ->
            get_requirement sx n = Return r ->
            _dependencies sx = _dependencies self ->
            record_dependency hx sx parent_req_name r result = (h', self', Raise e) ->
            is_KeyError e
            /\ _dependencies self' = _dependencies self
            /\ exists parent_name n r,
                 nonempty parent_req_name = Some parent_name
                 /\ get_requirement self' parent_name = Raise e
                 /\ nonempty (name (h install_req)) = Some n
                 /\ get_requirement self' n = Return r).
  { intros hx sx r result n Hn Hget Hd Heq.
    destruct (record_dependency_cases hx sx parent_req_name r result)
      as [Hc|[(p & e' & Hp & Hraise & Hc)|(p & pr & _ & _ & Hc)]];
      rewrite Hc in Heq; try done.
    injection Heq as <- <- <-.
    split; [by eapply get_requirement_raises|]. split; [done|]. eauto 10. }
  intros Heq.
  pose proof (add_requirement_paths match_markers Wheel_supported h self install_req
                parent_req_name extras_requested) as Hpath.
  rewrite Heq in Hpath. inversion Hpath; subst.
  all: try (left; by eauto 10).
  all: right.
  all: match goal with
       | H : record_dependency _ _ _ _ _ = _ |- _ => rename H into Hrd
       | H : _ = record_dependency _ _ _ _ _ |- _ => symmetry in H; rename H into Hrd
       end.
  all: match goal with
       | H : get_requirement _ _ = Return _ |- _ => by eapply Hrec
       | H : Return _ = get_requirement _ _ |- _ => symmetry in H; by eapply Hrec
       | _ => idtac
       end.
  match goal with H : nonempty _ = Some ?n |- _ =>
    eapply (Hrec _ _ install_req _ n);
      [done| |apply with_requirement_dependencies|exact Hrd];
    unfold get_requirement;
    match goal with |- context [Requirements_contains ?rs n] =>
      assert (Requirements_contains rs n = true) as -> end
  end.
  { apply Requirements_contains_true. unfold with_requirement.
    destruct (bool_decide _); simpl;
      destruct (Requirements_contains (requirements self) _) eqn:Hc;
      try (by apply Requirements_contains_true);
      apply elem_of_app; right; by apply list_elem_of_singleton. }
  unfold Requirements_getitem, with_requirement.
  destruct (bool_decide _); simpl; by rewrite lookup_insert_eq.
Qed.

Lemma Requirements_values_insert_new self n r values :
  n ∉ _keys self ->
  Requirements_values self = Return values ->
  Requirements_values {| _keys := _keys self ++ [n]; _dict := <[n := r]> (_dict self) |}
  = Return (values ++ [r]).
Proof.
  intros Hn Hv. unfold Requirements_values in *. simpl.
  apply mapM_outcome_Return in Hv. apply mapM_outcome_Return.
  apply Forall2_app.
  - apply Forall2_same_length_lookup. split; [by eapply Forall2_length|].
    intros i k v Hk Hvi. unfold Requirements_getitem. simpl.
    rewrite lookup_insert_ne.
    + apply Forall2_same_length_lookup in Hv as [_ Hv]. by apply (Hv i).
    + intros <-. apply Hn. by eapply list_elem_of_lookup_2.
  - repeat constructor. unfold Requirements_getitem. simpl. by rewrite lookup_insert_eq.
Qed.

(** X12.  The first occurrence of a name, whatever its parent: the
    requirement is registered last, so [values()] lists it after all the
    others; it is found under every spelling of its name that differs in
    case only; and its lowercase alias is recorded exactly when the name
    is not lowercase already.  This holds even when the call then fails
    on the lookup of the parent. *)
Theorem add_requirement_first_occurrence match_markers Wheel_supported h self
    install_req parent_req_name extras_requested n e :
  registry_ok self ->
  match_markers (h install_req) extras_requested = true ->
  unsupported_wheel Wheel_supported (link (h install_req)) = None ->
  nonempty (name (h install_req)) = Some n ->
  get_requirement self n = Raise e ->
  let self' :=
    (add_requirement match_markers Wheel_supported h self install_req parent_req_name
       extras_requested).1.2 in
  _keys (requirements self') = _keys (requirements self) ++ [n]
  /\ (forall values,
        Requirements_values (requirements self) = Return values ->
        Requirements_values (requirements self') = Return (values ++ [install_req]))
  /\ (forall project_name,
        lower project_name = lower n ->
        get_requirement self' project_name = Return install_req)
  /\ (requirement_aliases self' !! lower n = Some n <-> lower n <> n).
Proof.
  intros Hok Hm Hw Hn Hget.
  pose proof (get_requirement_Raise_not_key _ _ _ Hget Hok) as Hfresh.
  assert (Hkey : n ∉ _keys (requirements self)) by (intros Hin; by apply (Hfresh n Hin)).
  destruct (with_requirement_keys self n install_req Hkey) as [Hkeys Hdict].
  pose proof (with_requirement_ok self n install_req e Hok Hget) as Hok1.
  assert (Heq : (add_requirement match_markers Wheel_supported h self install_req
                   parent_req_name extras_requested).1.2
                = (record_dependency
                     (<[install_req := with_settings self parent_req_name (h install_req)]> h)
                     (with_requirement self n install_req) parent_req_name install_req
                     [install_req]).1.2).
  { unfold add_requirement. rewrite Hm, Hw, Hn. simpl. rewrite Hget.
    assert (double_requirement
              (<[install_req := with_settings self parent_req_name (h install_req)]> h)
              parent_req_name None install_req = None) as ->
      by (unfold double_requirement; by destruct parent_req_name).
    done. }
  intros self'. subst self'. rewrite Heq.
  match goal with |- context [record_dependency ?a ?b ?c ?d ?f] =>
    destruct (record_dependency_registry a b c d f) as (Hr & Ha & _) end.
  rewrite Hr, Ha. split; [done|]. split; [|split].
  - intros values Hv.
    replace (requirements (with_requirement self n install_req))
      with {| _keys := _keys (requirements self) ++ [n];
              _dict := <[n := install_req]> (_dict (requirements self)) |}.
    + by apply Requirements_values_insert_new.
    + destruct (requirements (with_requirement self n install_req)) as [ks d].
      simpl in *. by rewrite Hkeys, Hdict.
  - intros project_name Hl. rewrite (get_requirement_ext _ _ _ Hr Ha).
    eapply get_requirement_complete; [done| |by symmetry|].
    + rewrite Hkeys. apply elem_of_app. right. by apply list_elem_of_singleton.
    + rewrite Hdict. apply lookup_insert_eq.
  - unfold with_requirement. destruct (bool_decide (lower n ≠ n)) eqn:Hb; simpl.
    + apply bool_decide_eq_true in Hb. by rewrite lookup_insert_eq.
    + apply bool_decide_eq_false in Hb. split; [|done]. intros Ha'.
      apply (registry_ok_alias _ _ _ Hok) in Ha' as (Hin & _). done.
Qed.

(** ** The content of the install order *)

Section ScheduleContent.

Context (h : heap) (dependencies : gmap ref (list ref)).

(** What is in the order has its live dependencies marked. *)
Lemma schedule_closed fuel :
  (forall req s s',
     (forall x d, x ∈ order s -> live_edge h dependencies x d -> d ∈ ordered_reqs s) ->
     schedule h dependencies fuel req s = Some s' ->
     forall x d, x ∈ order s' -> live_edge h dependencies x d -> d ∈ ordered_reqs s')
  /\ (forall deps s s',
        (forall x d, x ∈ order s -> live_edge h dependencies x d -> d ∈ ordered_reqs s) ->
        for_each (schedule h dependencies fuel) deps s = Some s' ->
        forall x d, x ∈ order s' -> live_edge h dependencies x d -> d ∈ ordered_reqs s').
Proof.
  assert (Hloop : forall fuel,
    (forall req s s',
       (forall x d, x ∈ order s -> live_edge h dependencies x d -> d ∈ ordered_reqs s) ->
       schedule h dependencies fuel req s = Some s' ->
       forall x d, x ∈ order s' -> live_edge h dependencies x d -> d ∈ ordered_reqs s') ->
    forall deps s s',
      (forall x d, x ∈ order s -> live_edge h dependencies x d -> d ∈ ordered_reqs s) ->
      for_each (schedule h dependencies fuel) deps s = Some s' ->
      forall x d, x ∈ order s' -> live_edge h dependencies x d -> d ∈ ordered_reqs s').
  { intros fuel0 Hs. induction deps as [|d0 deps IH]; intros s s' Hc; cbn [for_each].
    - by intros [= <-].
    - destruct (schedule h dependencies fuel0 d0 s) as [s1|] eqn:Hd; [|done].
      intros Hrest. eapply IH; [|exact Hrest]. by eapply Hs. }
  induction fuel as [|fuel [IHs IHf]].
  - split; [done|]. by apply Hloop.
  - assert (Hs : forall req s s',
       (forall x d, x ∈ order s -> live_edge h dependencies x d -> d ∈ ordered_reqs s) ->
       schedule h dependencies (S fuel) req s = Some s' ->
       forall x d, x ∈ order s' -> live_edge h dependencies x d -> d ∈ ordered_reqs s');
      [|split; [exact Hs|by apply Hloop]].
    intros req s s' Hc. simpl.
    destruct (bool_decide (is_Some (satisfied_by (h req))) || _); [by intros [= <-]|].
    destruct (constraint (h req)); [by intros [= <-]|].
    set (s1 := {| order := order s; ordered_reqs := {[req]} ∪ ordered_reqs s |}).
    destruct (for_each _ _ s1) as [s2|] eqn:Hfor; [|done].
    intros [= <-]. simpl.
    pose proof (proj2 (schedule_extends h dependencies fuel) _ _ _ Hfor) as [_ Hdeps].
    assert (Hc2 : forall x d, x ∈ order s2 -> live_edge h dependencies x d ->
                              d ∈ ordered_reqs s2).
    { eapply IHf; [|exact Hfor]. simpl. intros x d Hx Hd.
      specialize (Hc x d Hx Hd). set_solver. }
    intros x d [Hx|Hx]%elem_of_app Hd; [by eapply Hc2|].
    apply list_elem_of_singleton in Hx as ->. destruct Hd as [Hd Hlive].
    by apply Hdeps.
Qed.

(** What a run adds to the order is reached from where the run started. *)
Lemma schedule_reached fuel :
  (forall req s s',
     schedule h dependencies fuel req s = Some s' ->
     forall x, x ∈ order s' ->
       x ∈ order s
       \/ (skipped h req = false /\ rtc (live_edge h dependencies) req x))
  /\ (forall deps s s',
        for_each (schedule h dependencies fuel) deps s = Some s' ->
        forall x, x ∈ order s' ->
          x ∈ order s
          \/ exists d, d ∈ deps /\ skipped h d = false
                       /\ rtc (live_edge h dependencies) d x).
Proof.
  assert (Hloop : forall fuel,
    (forall req s s',
       schedule h dependencies fuel req s = Some s' ->
       forall x, x ∈ order s' ->
         x ∈ order s
         \/ (skipped h req = false /\ rtc (live_edge h dependencies) req x)) ->
    forall deps s s',
      for_each (schedule h dependencies fuel) deps s = Some s' ->
      forall x, x ∈ order s' ->
        x ∈ order s
        \/ exists d, d ∈ deps /\ skipped h d = false
                     /\ rtc (live_edge h dependencies) d x).
  { intros fuel0 Hs. induction deps as [|d0 deps IH]; intros s s'; cbn [for_each].
    - intros [= <-] x Hx. by left.
    - destruct (schedule h dependencies fuel0 d0 s) as [s1|] eqn:Hd; [|done].
      intros Hrest x Hx.
      destruct (IH _ _ Hrest x Hx) as [Hx1|(d & Hin & Hlive & Hreach)].
      + destruct (Hs _ _ _ Hd x Hx1) as [?|[Hlive Hreach]]; [by left|].
        right. exists d0. split; [apply elem_of_cons; by left|done].
      + right. exists d. split; [apply elem_of_cons; by right|done]. }
  induction fuel as [|fuel [IHs IHf]].
  - split; [done|]. by apply Hloop.
  - assert (Hs : forall req s s',
       schedule h dependencies (S fuel) req s = Some s' ->
       forall x, x ∈ order s' ->
         x ∈ order s
         \/ (skipped h req = false /\ rtc (live_edge h dependencies) req x));
      [|split; [exact Hs|by apply Hloop]].
    intros req s s'. simpl. unfold skipped.
    destruct (bool_decide (is_Some (satisfied_by (h req)))) eqn:Hsat; simpl.
    { intros [= <-] x Hx. by left. }
    destruct (bool_decide (req ∈ ordered_reqs s)).
    { intros [= <-] x Hx. by left. }
    destruct (constraint (h req)) eqn:Hcon.
    { intros [= <-] x Hx. by left. }
    destruct (for_each _ _ _) as [s2|] eqn:Hfor; [|done].
    intros [= <-] x. simpl. intros [Hx|Hx]%elem_of_app.
    + destruct (IHf _ _ _ Hfor x Hx) as [?|(d & Hin & Hlive & Hreach)]; [by left|].
      right. split; [done|]. eapply rtc_l; [|exact Hreach]. by split.
    + apply list_elem_of_singleton in Hx as ->. right. by split.
Qed.

End ScheduleContent.

(** X13.  The content of the install order, on any graph, cycles
    included: with a well-formed registry, a requirement is in the order
    exactly when it is reached, along recorded edges and through
    requirements that are not skipped, from a registered requirement that
    is not skipped. *)
Theorem to_install_content h self :
  Requirements_ok (requirements self) ->
  exists values l,
    Requirements_values (requirements self) = Return values
    /\ _to_install h self = Some (Return l)
    /\ forall r,
         r ∈ l <->
         exists root,
           root ∈ values /\ skipped h root = false
           /\ rtc (live_edge h (_dependencies self)) root r.
Proof.
  intros Hok. destruct (Requirements_values_ok _ Hok) as [values Hvalues].
  exists values. unfold _to_install. rewrite Hvalues.
  set (init := {| order := []; ordered_reqs := ∅ |}).
  destruct (proj2 (schedule_terminates h (_dependencies self)
                     (depth_bound (_dependencies self))) values init) as [s Hs].
  { unfold depth_bound. simpl.
    eapply Nat.le_lt_trans; [apply subseteq_size|apply Nat.lt_succ_diag_r]. set_solver. }
  rewrite Hs. exists (order s). split; [done|]. split; [done|].
  pose proof (proj2 (schedule_extends h _ _) _ _ _ Hs)
    as [(new & Ho & Hv & _ & _) Hroots].
  simpl in Ho, Hv.
  assert (Hmarked : forall x, x ∈ ordered_reqs s <-> x ∈ order s).
  { intros x. rewrite Hv, Ho. set_solver. }
  pose proof (proj2 (schedule_closed h (_dependencies self)
                       (depth_bound (_dependencies self))) values init s) as Hclosed.
  pose proof (proj2 (schedule_reached h _ _) _ _ _ Hs) as Hreached.
  intros r. split.
  - intros Hr. destruct (Hreached r Hr) as [Hnil|Hroot]; [|done].
    by apply elem_of_nil in Hnil.
  - intros (root & Hin & Hlive & Hpath).
    assert (Hroot : root ∈ order s) by (apply Hmarked; by apply Hroots).
    clear Hin Hlive. induction Hpath as [|x y z Hxy _ IH]; [done|].
    apply IH. apply Hmarked. eapply Hclosed; [|exact Hs|exact Hroot|exact Hxy].
    by intros ?? ?%elem_of_nil.
Qed.

(** X14.  [has_requirements] on a well-formed registry returns a list and
    never raises; the list is empty exactly when every registered
    requirement is a constraint and there is no unnamed requirement; and
    when it is empty there is nothing to install: the install order is
    empty. *)
Theorem has_requirements_empty h self :
  Requirements_ok (requirements self) ->
  exists values reqs,
    Requirements_values (requirements self) = Return values
    /\ has_requirements h self = Return reqs
    /\ (reqs = [] <->
        (forall r, r ∈ values -> constraint (h r) = true)
        /\ unnamed_requirements self = [])
    /\ (reqs = [] -> _to_install h self = Some (Return [])).
Proof.
  intros Hok. destruct (Requirements_values_ok _ Hok) as [values Hvalues].
  unfold has_requirements. rewrite Hvalues. simpl.
  set (real := filter (fun req => constraint (h req) = false) values).
  assert (Hreal : real = [] <-> forall r, r ∈ values -> constraint (h r) = true).
  { split.
    - intros Hnil r Hr. destruct (constraint (h r)) eqn:Hc; [done|].
      assert (r ∈ real) as Hin by (by apply list_elem_of_filter).
      rewrite Hnil in Hin. by apply elem_of_nil in Hin.
    - intros Hall. destruct real as [|r real'] eqn:Hr; [done|].
      assert (r ∈ filter (fun req => constraint (h req) = false) values) as Hin.
      { fold real. rewrite Hr. apply elem_of_cons. by left. }
      apply list_elem_of_filter in Hin as [Hc Hin]. apply Hall in Hin. congruence. }
  eexists values, _. split; [done|]. split; [done|].
  assert (Hempty : match real with [] => unnamed_requirements self | _ :: _ => real end = []
                   <-> (forall r, r ∈ values -> constraint (h r) = true)
                       /\ unnamed_requirements self = []).
  { rewrite <- Hreal. destruct real; naive_solver. }
  split; [exact Hempty|].
  intros [Hall _]%Hempty.
  unfold _to_install. rewrite Hvalues.
  set (init := {| order := []; ordered_reqs := ∅ |}).
  destruct (proj2 (schedule_terminates h (_dependencies self)
                     (depth_bound (_dependencies self))) values init) as [s Hs].
  { unfold depth_bound. simpl.
    eapply Nat.le_lt_trans; [apply subseteq_size|apply Nat.lt_succ_diag_r]. set_solver. }
  rewrite Hs. do 2 f_equal.
  pose proof (proj2 (schedule_reached h _ _) _ _ _ Hs) as Hreached.
  apply elem_of_nil_inv. intros x Hx.
  destruct (Hreached x Hx) as [Hnil|(root & Hin & Hlive & _)].
  - by apply elem_of_nil in Hnil.
  - apply Hall in Hin. unfold skipped in Hlive. rewrite Hin in Hlive.
    by rewrite orb_true_r in Hlive.
Qed.

(** ** The log of a run of install *)

Section InstallLog.

Context {Env : Type} (ext : @collaborators Env).

Ltac split_calls pre post :=
  first
    [ solve
        [ exists pre, post; cbn [app];
          split; [reflexivity|];
          split; [repeat constructor|];
          split; [repeat constructor|];
          split; [first [ reflexivity
                        | left; eexists; reflexivity
                        | right; eexists _, _, _; split; reflexivity ]|];
          split; [first [ by exists [] | by eexists [_] ]|];
          first [ done | intros _; split; reflexivity ] ]
    | lazymatch post with
      | ?x :: ?rest => let pre' := eval cbn [app] in (pre ++ [x]) in split_calls pre' rest
      end ].

(** The calls made for one requirement. *)
Lemma install_requirement_log requirement (w : @world Env) :
  exists ok tail,
    calls (install_requirement ext requirement w).1 = calls w ++ ok ++ tail
    /\ Forall (fun c => c.2 = None /\ call_requirement c.1 = requirement
                        /\ is_rollback c.1 = false) ok
    /\ Forall (fun c => call_requirement c.1 = requirement) tail
    /\ run_end tail (install_requirement ext requirement w).2
    /\ install_calls (ok ++ tail) `prefix_of` [requirement]
    /\ ((install_requirement ext requirement w).2 = Return tt ->
        install_calls ok = [requirement] /\ removal_calls ok = [requirement]).
Proof.
  unfold install_requirement, mbind, M_bind, getattr, when, try_except_else, invoke,
    raise, mret, M_ret.
  destruct (bool_decide (is_Some (conflicts_with (objects w requirement)))); simpl.
  all: repeat match goal with
    | |- context [InstallRequirement_uninstall ext ?r ?h ?e] =>
        destruct (InstallRequirement_uninstall ext r h e) as [[? ?] [?|]]; simpl
    | |- context [InstallRequirement_install ext ?r ?h ?e] =>
        destruct (InstallRequirement_install ext r h e) as [[? ?] [?|]]; simpl
    | |- context [UninstallPathSet_rollback ext ?r ?h ?e] =>
        destruct (UninstallPathSet_rollback ext r h e) as [[? ?] [?|]]; simpl
    | |- context [UninstallPathSet_commit ext ?r ?h ?e] =>
        destruct (UninstallPathSet_commit ext r h e) as [[? ?] [?|]]; simpl
    | |- context [InstallRequirement_remove_temporary_source ext ?r ?h ?e] =>
        destruct (InstallRequirement_remove_temporary_source ext r h e)
          as [[? ?] [?|]]; simpl
    | |- context [if ?b then _ else _] => destruct b; simpl
    end.
  all: rewrite <- ?app_assoc; cbn [app].
  all: match goal with
       | |- exists ok tail, _ ++ ?cs = _ /\ _ =>
           split_calls (@nil (call * option exn)) cs
       end.
Qed.

(** The calls made for a list of requirements. *)
Lemma install_all_log to_install (w : @world Env) :
  exists ok tail,
    calls (install_all ext to_install w).1 = calls w ++ ok ++ tail
    /\ Forall (fun c => c.2 = None /\ is_rollback c.1 = false) ok
    /\ Forall (fun c => call_requirement c.1 ∈ to_install) (ok ++ tail)
    /\ run_end tail (install_all ext to_install w).2
    /\ install_calls (ok ++ tail) `prefix_of` to_install
    /\ ((install_all ext to_install w).2 = Return tt ->
        install_calls ok = to_install /\ removal_calls ok = to_install).
Proof.
  revert w. induction to_install as [|r l IH]; intros w.
  { exists [], []. simpl. rewrite app_nil_r. repeat split; try done; constructor. }
  rewrite install_all_cons.
  destruct (install_requirement_log r w) as (ok1 & tail1 & Hc1 & Hok1 & Ht1 & He1 & Hp1 & Hr1).
  destruct (install_requirement ext r w) as [w1 [[]|e]]; simpl in *.
  - subst tail1. rewrite app_nil_r in *. destruct (Hr1 eq_refl) as [Hi1 Hm1].
    destruct (IH w1) as (ok2 & tail2 & Hc2 & Hok2 & Ht2 & He2 & Hp2 & Hr2).
    exists (ok1 ++ ok2), tail2. split; [by rewrite Hc2, Hc1, <- !app_assoc|].
    split.
    { apply Forall_app. split; [|done]. eapply Forall_impl; [exact Hok1|].
      by intros c (? & _ & ?). }
    split.
    { rewrite <- app_assoc. apply Forall_app. split.
      - eapply Forall_impl; [exact Hok1|]. intros c (_ & -> & _). apply elem_of_cons.
        by left.
      - eapply Forall_impl; [exact Ht2|]. intros c Hc. apply elem_of_cons. by right. }
    split; [done|]. split.
    { unfold install_calls in *. rewrite <- app_assoc, omap_app, Hi1.
      by apply prefix_cons. }
    intros Hret. destruct (Hr2 Hret) as [Hi2 Hm2].
    split.
    + unfold install_calls in *. by rewrite omap_app, Hi1, Hi2.
    + unfold removal_calls in *. by rewrite omap_app, Hm1, Hm2.
  - exists ok1, tail1. split; [done|]. split.
    { eapply Forall_impl; [exact Hok1|]. by intros c (? & _ & ?). }
    split.
    { apply Forall_app. split.
      - eapply Forall_impl; [exact Hok1|]. intros c (_ & -> & _). apply elem_of_cons.
        by left.
      - eapply Forall_impl; [exact Ht1|]. intros c ->. apply elem_of_cons. by left. }
    split; [done|]. split; [|done].
    destruct Hp1 as [k Hk]. exists (k ++ l).
    change (r :: l) with ([r] ++ l). by rewrite Hk, <- app_assoc.
Qed.

End InstallLog.

Section InstallRuns.

Context {Env : Type} (ext : @collaborators Env).

(** X15.  Uninstall, install, commit: when the requirement has
    [conflicts_with] set, its uninstall and its install return, the
    install leaves [conflicts_with] set and [install_succeeded] true, and
    the commit returns, the calls made for it are exactly uninstall,
    install, commit and the removal of its temporary source, and the
    outcome is that of the removal. *)
Theorem install_requirement_commits requirement (w : @world Env)
    h1 e1 h2 e2 h3 e3 h4 e4 res :
  is_Some (conflicts_with (objects w requirement)) ->
  InstallRequirement_uninstall ext requirement (objects w) (env w) = (h1, e1, None) ->
  InstallRequirement_install ext requirement h1 e1 = (h2, e2, None) ->
  is_Some (conflicts_with (h2 requirement)) ->
  install_succeeded (h2 requirement) = true ->
  UninstallPathSet_commit ext requirement h2 e2 = (h3, e3, None) ->
  InstallRequirement_remove_temporary_source ext requirement h3 e3 = (h4, e4, res) ->
  install_requirement ext requirement w
  = ({| objects := h4; env := e4;
        calls := calls w ++ [(Call_uninstall requirement, None);
                             (Call_install requirement, None);
                             (Call_commit requirement, None);
                             (Call_remove_temporary_source requirement, res)] |},
     match res with
     | None => Return tt
     | Some e => Raise e
     end).
Proof.
  intros Hc Hun Hin Hc2 Hsucc Hcommit Hrm.
  unfold install_requirement, mbind, M_bind, getattr, when, try_except_else, invoke,
    raise, mret, M_ret.
  rewrite (bool_decide_eq_true_2 _ Hc), Hun. simpl. rewrite Hin. simpl.
  rewrite (bool_decide_eq_true_2 _ Hc2), Hsucc. simpl. rewrite Hcommit. simpl.
  rewrite Hrm. rewrite <- !app_assoc. simpl. by destruct res.
Qed.

(** X16.  An install that returns without [install_succeeded] leaves the
    uninstall as it is: with [conflicts_with] set, the uninstall and the
    install returning, and [install_succeeded] false afterwards, neither
    commit nor rollback is called; the temporary source is removed and
    the loop goes on. *)
Theorem install_requirement_unreported requirement (w : @world Env)
    h1 e1 h2 e2 h3 e3 res :
  is_Some (conflicts_with (objects w requirement)) ->
  InstallRequirement_uninstall ext requirement (objects w) (env w) = (h1, e1, None) ->
  InstallRequirement_install ext requirement h1 e1 = (h2, e2, None) ->
  install_succeeded (h2 requirement) = false ->
  InstallRequirement_remove_temporary_source ext requirement h2 e2 = (h3, e3, res) ->
  install_requirement ext requirement w
  = ({| objects := h3; env := e3;
        calls := calls w ++ [(Call_uninstall requirement, None);
                             (Call_install requirement, None);
                             (Call_remove_temporary_source requirement, res)] |},
     match res with
     | None => Return tt
     | Some e => Raise e
     end).
Proof.
  intros Hc Hun Hin Hsucc Hrm.
  unfold install_requirement, mbind, M_bind, getattr, when, try_except_else, invoke,
    raise, mret, M_ret.
  rewrite (bool_decide_eq_true_2 _ Hc), Hun. simpl. rewrite Hin. simpl.
  rewrite Hsucc, andb_false_r. simpl.
  rewrite Hrm. rewrite <- !app_assoc. simpl. by destruct res.
Qed.

(** X17.  The log of a run of [install].  The calls made are calls on
    requirements of the order.  They all returned and none is a rollback,
    except at the very end: a run that raises ends with the call that
    raised, or with the install that raised and its rollback.  When names
    are missing for the log line nothing is called.
    [successfully_installed] is assigned when the run returns, and only
    then. *)
Theorem install_log self (w : @world Env) l :
  _to_install (objects w) self = Some (Return l) ->
  exists self' w' out ok tail,
    install ext self w = Some (self', w', out)
    /\ calls w' = calls w ++ ok ++ tail
    /\ Forall (fun c => c.2 = None /\ is_rollback c.1 = false) ok
    /\ Forall (fun c => call_requirement c.1 ∈ l) (ok ++ tail)
    /\ match out with
       | Return _ => tail = [] /\ self' = set_successfully_installed self l
       | Raise e =>
           self' = self
           /\ (run_end tail (Raise e)
               \/ (~ all_named (objects w) l /\ ok = [] /\ tail = []))
       end.
Proof.
  intros Horder. unfold install. rewrite Horder.
  destruct (bool_decide (all_named (objects w) l)) eqn:Hnamed.
  - destruct (install_all_log ext l w) as (ok & tail & Hc & Hok & Hon & Hend & _).
    destruct (install_all ext l w) as [w' [[]|e]]; simpl in *.
    + exists (set_successfully_installed self l), w', (Return tt), ok, tail. done.
    + exists self, w', (Raise e), ok, tail. repeat split; try done. by left.
  - apply bool_decide_eq_false in Hnamed.
    exists self, w, (Raise (TypeError "sequence item: expected str instance")), [], [].
    rewrite !app_nil_r. split; [done|]. split; [done|].
    split; [constructor|]. split; [constructor|]. split; [done|]. by right.
Qed.

(** X18.  [install] is called on the requirements of the order, in that
    order and on none twice: the requirements installed are the first of
    the order, and all of it when the run returns; then the temporary
    source of each has been removed, in the same order, and
    [successfully_installed] is the order. *)
Theorem install_in_order self (w : @world Env) l :
  _to_install (objects w) self = Some (Return l) ->
  exists self' w' out cs,
    install ext self w = Some (self', w', out)
    /\ calls w' = calls w ++ cs
    /\ install_calls cs `prefix_of` l
    /\ (out = Return tt ->
        install_calls cs = l
        /\ removal_calls cs = l
        /\ successfully_installed self' = l).
Proof.
  intros Horder. unfold install. rewrite Horder.
  destruct (bool_decide (all_named (objects w) l)) eqn:Hnamed.
  - destruct (install_all_log ext l w) as (ok & tail & Hc & _ & _ & Hend & Hp & Hret).
    destruct (install_all ext l w) as [w' [[]|e]]; simpl in *.
    + subst tail. rewrite app_nil_r in *. destruct (Hret eq_refl) as [Hi Hm].
      exists (set_successfully_installed self l), w', (Return tt), ok. done.
    + exists self, w', (Raise e), (ok ++ tail). done.
  - exists self, w, (Raise (TypeError "sequence item: expected str instance")), [].
    rewrite app_nil_r. repeat split; try done. apply prefix_nil.
Qed.

#[local] Existing Instance M_ret.
#[local] Existing Instance M_bind.

Lemma remove_temporary_sources_log reqs (w : @world Env) :
  exists done,
    done `prefix_of` reqs
    /\ (calls (remove_temporary_sources ext reqs w).1).*1
       = (calls w).*1 ++ (Call_remove_temporary_source <$> done)
    /\ ((remove_temporary_sources ext reqs w).2 = Return tt -> done = reqs).
Proof.
  revert w. induction reqs as [|r reqs IH]; intros w.
  { exists []. simpl. by rewrite app_nil_r. }
  cbn [remove_temporary_sources]. unfold mbind, M_bind, invoke.
  destruct (InstallRequirement_remove_temporary_source ext r (objects w) (env w))
    as [[h1 e1] [err|]]; simpl.
  - exists [r]. split; [by exists reqs|]. split; [|done]. by rewrite fmap_app.
  - match goal with |- context [remove_temporary_sources ext reqs ?w1] =>
      destruct (IH w1) as (done & Hp & Hc & Hret) end.
    exists (r :: done). split; [by apply prefix_cons|]. split.
    + rewrite Hc. simpl. by rewrite fmap_app, <- app_assoc.
    + intros Hr. by rewrite Hret.
Qed.

(** X19.  [cleanup_files] calls [remove_temporary_source] on the
    requirements of [reqs_to_cleanup], in order, and calls nothing else;
    it stops at the first call that raises; when it returns, every
    requirement of the list has had its call. *)
Theorem cleanup_files_log self (w : @world Env) :
  exists done,
    done `prefix_of` reqs_to_cleanup self
    /\ (calls (cleanup_files ext self w).1).*1
       = (calls w).*1 ++ (Call_remove_temporary_source <$> done)
    /\ ((cleanup_files ext self w).2 = Return tt -> done = reqs_to_cleanup self)
    /\ (forall e, (cleanup_files ext self w).2 = Raise e ->
        exists c, last (calls (cleanup_files ext self w).1) = Some (c, Some e)).
Proof.
  unfold cleanup_files.
  destruct (remove_temporary_sources_log (reqs_to_cleanup self) w)
    as (done & Hp & Hc & Hret).
  exists done. split; [done|]. split; [done|]. split; [done|].
  clear. generalize (reqs_to_cleanup self) as reqs. intros reqs. revert w.
  induction reqs as [|r reqs IH]; intros w e; [done|].
  cbn [remove_temporary_sources]. unfold mbind, M_bind, invoke.
  destruct (InstallRequirement_remove_temporary_source ext r (objects w) (env w))
    as [[h1 e1] [err|]]; simpl.
  - intros [= <-]. eexists. by rewrite last_snoc.
  - apply IH.
Qed.

End InstallRuns.

(** * The further properties on the example sets *)

Lemma Requirements_setitem_values_witness :
  exists values,
    Requirements_values (requirements pkg_state.2) = Return values
    /\ length values = length (_keys (requirements pkg_state.2))
    /\ Requirements_wf (Requirements_setitem (requirements pkg_state.2) "X" 7)
    /\ ("X" ∉ _keys (requirements pkg_state.2) ->
        Requirements_values (Requirements_setitem (requirements pkg_state.2) "X" 7)
        = Return (values ++ [7]))
    /\ (forall i, _keys (requirements pkg_state.2) !! i = Some "X" ->
        Requirements_values (Requirements_setitem (requirements pkg_state.2) "X" 7)
        = Return (<[i := 7]> values)).
Proof.
  apply (Requirements_setitem_values (requirements pkg_state.2) "X" 7).
  apply (bool_decide_unpack _). vm_compute. exact I.
Defined.

Lemma get_requirement_by_lowercase_witness :
  (forall r,
     get_requirement pkg_state.2 "x" = Return r
     <-> exists key,
           key ∈ _keys (requirements pkg_state.2)
           /\ lower key = lower "x"
           /\ _dict (requirements pkg_state.2) !! key = Some r)
  /\ ((forall key, key ∈ _keys (requirements pkg_state.2) -> lower key <> lower "x")
      <-> get_requirement pkg_state.2 "x" = Raise (KeyError "x")).
Proof.
  apply (get_requirement_by_lowercase pkg_state.2 "x").
  apply (bool_decide_unpack _). vm_compute. exact I.
Defined.

Lemma get_requirement_case_insensitive_witness :
  get_requirement pkg_state.2 "x" = Return 0.
Proof.
  apply (get_requirement_case_insensitive pkg_state.2 "X" "x" 0).
  - apply (bool_decide_unpack _). vm_compute. exact I.
  - reflexivity.
  - reflexivity.
Defined.

Lemma has_requirement_get_requirement_witness :
  exists b,
    has_requirement pkg_state.1 pkg_state.2 "PKG" = Return b
    /\ (b = true <->
        exists r, get_requirement pkg_state.2 "PKG" = Return r
                  /\ constraint (pkg_state.1 r) = false).
Proof.
  apply (has_requirement_get_requirement pkg_state.1 pkg_state.2 "PKG").
  apply (bool_decide_unpack _). vm_compute. exact I.
Defined.

Lemma add_requirement_registry_ok_witness :
  registry_ok
    (add_requirement all_markers_match all_wheels_supported pkg_state.1 pkg_state.2 2
       (Some "X") None).1.2.
Proof.
  apply (add_requirement_registry_ok all_markers_match all_wheels_supported
           pkg_state.1 pkg_state.2 2 (Some "X") None).
  apply (bool_decide_unpack _). vm_compute. exact I.
Defined.

Lemma add_requirement_dependencies_ok_witness :
  dependencies_ok
    (add_requirement all_markers_match all_wheels_supported dag_state.1 dag_state.2 5
       (Some "app") None).1.2.
Proof.
  apply (add_requirement_dependencies_ok all_markers_match all_wheels_supported
           dag_state.1 dag_state.2 5 (Some "app") None).
  - apply (bool_decide_unpack _). vm_compute. exact I.
  - apply (bool_decide_unpack _). vm_compute. exact I.
Defined.

Lemma add_requirement_only_adds_witness :
  _keys (requirements dag_state.2)
    `prefix_of` _keys (requirements
                         (add_requirement all_markers_match all_wheels_supported
                            dag_state.1 dag_state.2 5 (Some "app") None).1.2)
  /\ (forall project_name r,
        get_requirement dag_state.2 project_name = Return r ->
        get_requirement
          (add_requirement all_markers_match all_wheels_supported dag_state.1
             dag_state.2 5 (Some "app") None).1.2 project_name
        = Return r)
  /\ (forall p,
        (_dependencies dag_state.2 !!! p)
          `prefix_of` (_dependencies
                         (add_requirement all_markers_match all_wheels_supported
                            dag_state.1 dag_state.2 5 (Some "app") None).1.2 !!! p))
  /\ unnamed_requirements dag_state.2
       `prefix_of` unnamed_requirements
                     (add_requirement all_markers_match all_wheels_supported
                        dag_state.1 dag_state.2 5 (Some "app") None).1.2
  /\ reqs_to_cleanup dag_state.2
       `prefix_of` reqs_to_cleanup
                     (add_requirement all_markers_match all_wheels_supported
                        dag_state.1 dag_state.2 5 (Some "app") None).1.2.
Proof.
  apply (add_requirement_only_adds all_markers_match all_wheels_supported
           dag_state.1 dag_state.2 5 (Some "app") None).
  apply (bool_decide_unpack _). vm_compute. exact I.
Defined.


(** A parent that was never added: the call fails on its lookup, after
    the requirement itself has been registered. *)
Lemma add_requirement_errors_witness :
  (exists msg,
     KeyError "nobody" = InstallationError msg
     /\ requirements
          (add_requirement all_markers_match all_wheels_supported cycle_heap empty_set 0
             (Some "nobody") None).1.2
        = requirements empty_set
     /\ requirement_aliases
          (add_requirement all_markers_match all_wheels_supported cycle_heap empty_set 0
             (Some "nobody") None).1.2
        = requirement_aliases empty_set
     /\ _dependencies
          (add_requirement all_markers_match all_wheels_supported cycle_heap empty_set 0
             (Some "nobody") None).1.2
        = _dependencies empty_set
     /\ unnamed_requirements
          (add_requirement all_markers_match all_wheels_supported cycle_heap empty_set 0
             (Some "nobody") None).1.2
        = unnamed_requirements empty_set)
  \/ (is_KeyError (KeyError "nobody")
      /\ _dependencies
           (add_requirement all_markers_match all_wheels_supported cycle_heap empty_set
              0 (Some "nobody") None).1.2
         = _dependencies empty_set
      /\ exists parent_name n r,
           nonempty (Some "nobody") = Some parent_name
           /\ get_requirement
                (add_requirement all_markers_match all_wheels_supported cycle_heap
                   empty_set 0 (Some "nobody") None).1.2 parent_name
              = Raise (KeyError "nobody")
           /\ nonempty (name (cycle_heap 0)) = Some n
           /\ get_requirement
                (add_requirement all_markers_match all_wheels_supported cycle_heap
                   empty_set 0 (Some "nobody") None).1.2 n
              = Return r).
Proof.
  apply (add_requirement_errors all_markers_match all_wheels_supported cycle_heap
           empty_set 0 (Some "nobody") None
           (add_requirement all_markers_match all_wheels_supported cycle_heap empty_set 0
              (Some "nobody") None).1.1).
  reflexivity.
Defined.

Lemma add_requirement_first_occurrence_witness :
  _keys (requirements
           (add_requirement all_markers_match all_wheels_supported pkg_heap empty_set 0
              None None).1.2)
  = _keys (requirements empty_set) ++ ["X"]
  /\ (forall values,
        Requirements_values (requirements empty_set) = Return values ->
        Requirements_values
          (requirements
             (add_requirement all_markers_match all_wheels_supported pkg_heap empty_set 0
                None None).1.2)
        = Return (values ++ [0]))
  /\ (forall project_name,
        lower project_name = lower "X" ->
        get_requirement
          (add_requirement all_markers_match all_wheels_supported pkg_heap empty_set 0
             None None).1.2 project_name
        = Return 0)
  /\ (requirement_aliases
        (add_requirement all_markers_match all_wheels_supported pkg_heap empty_set 0
           None None).1.2 !! lower "X"
      = Some "X" <-> lower "X" <> "X").
Proof.
  apply (add_requirement_first_occurrence all_markers_match all_wheels_supported
           pkg_heap empty_set 0 None None "X" (KeyError "X")).
  - apply (bool_decide_unpack _). vm_compute. exact I.
  - reflexivity.
  - reflexivity.
  - reflexivity.
  - reflexivity.
Defined.

Lemma to_install_content_witness :
  exists values l,
    Requirements_values (requirements cycle_state.2) = Return values
    /\ _to_install cycle_state.1 cycle_state.2 = Some (Return l)
    /\ forall r,
         r ∈ l <->
         exists root,
           root ∈ values /\ skipped cycle_state.1 root = false
           /\ rtc (live_edge cycle_state.1 (_dependencies cycle_state.2)) root r.
Proof.
  apply (to_install_content cycle_state.1 cycle_state.2).
  apply (bool_decide_unpack _). vm_compute. exact I.
Defined.

Lemma has_requirements_empty_witness :
  exists values reqs,
    Requirements_values (requirements pinned_state.2) = Return values
    /\ has_requirements pinned_state.1 pinned_state.2 = Return reqs
    /\ (reqs = [] <->
        (forall r, r ∈ values -> constraint (pinned_state.1 r) = true)
        /\ unnamed_requirements pinned_state.2 = [])
    /\ (reqs = [] -> _to_install pinned_state.1 pinned_state.2 = Some (Return [])).
Proof.
  apply (has_requirements_empty pinned_state.1 pinned_state.2).
  apply (bool_decide_unpack _). vm_compute. exact I.
Defined.

Example has_requirements_pinned :
  has_requirements pinned_state.1 pinned_state.2 = Return [].
Proof. vm_compute. reflexivity. Qed.

(** The spec's scenario for the commit: [b] conflicts with [b-old 1.0]
    and its install succeeds. *)
Lemma install_requirement_commits_witness :
  exists w',
    install_requirement failing_install 0 upgrade_world = (w', Return tt)
    /\ calls w'
       = [(Call_uninstall 0, None); (Call_install 0, None); (Call_commit 0, None);
          (Call_remove_temporary_source 0, None)].
Proof.
  eexists. split.
  - apply (install_requirement_commits failing_install 0 upgrade_world
             (objects upgrade_world) (env upgrade_world ∖ {["b-old 1.0"]})
             (<[0 := succeeded (objects upgrade_world 0)]> (objects upgrade_world))
             (env upgrade_world ∖ {["b-old 1.0"]} ∪ {["b"]})
             (<[0 := succeeded (objects upgrade_world 0)]> (objects upgrade_world))
             (env upgrade_world ∖ {["b-old 1.0"]} ∪ {["b"]})
             (<[0 := succeeded (objects upgrade_world 0)]> (objects upgrade_world))
             (env upgrade_world ∖ {["b-old 1.0"]} ∪ {["b"]})
             None).
    + vm_compute. eexists. reflexivity.
    + reflexivity.
    + reflexivity.
    + vm_compute. eexists. reflexivity.
    + reflexivity.
    + reflexivity.
    + reflexivity.
  - reflexivity.
Defined.

Lemma install_requirement_unreported_witness :
  exists w',
    install_requirement quiet_install 0 upgrade_world = (w', Return tt)
    /\ calls w'
       = [(Call_uninstall 0, None); (Call_install 0, None);
          (Call_remove_temporary_source 0, None)].
Proof.
  eexists. split.
  - apply (install_requirement_unreported quiet_install 0 upgrade_world
             (objects upgrade_world) (env upgrade_world)
             (objects upgrade_world) (env upgrade_world)
             (objects upgrade_world) (env upgrade_world) None).
    + vm_compute. eexists. reflexivity.
    + reflexivity.
    + reflexivity.
    + reflexivity.
    + reflexivity.
  - reflexivity.
Defined.

Lemma install_log_witness :
  exists self' w' out ok tail,
    install failing_install install_state.2 install_world = Some (self', w', out)
    /\ calls w' = calls install_world ++ ok ++ tail
    /\ Forall (fun c => c.2 = None /\ is_rollback c.1 = false) ok
    /\ Forall (fun c => call_requirement c.1 ∈ [0; 1; 2]) (ok ++ tail)
    /\ match out with
       | Return _ => tail = [] /\ self' = set_successfully_installed install_state.2 [0; 1; 2]
       | Raise e =>
           self' = install_state.2
           /\ (run_end tail (Raise e)
               \/ (~ all_named (objects install_world) [0; 1; 2] /\ ok = [] /\ tail = []))
       end.
Proof.
  apply (install_log failing_install install_state.2 install_world [0; 1; 2]).
  vm_compute. reflexivity.
Defined.

Lemma install_in_order_witness :
  exists self' w' out cs,
    install failing_install upgrade_state.2 upgrade_world = Some (self', w', out)
    /\ calls w' = calls upgrade_world ++ cs
    /\ install_calls cs `prefix_of` [0; 2]
    /\ (out = Return tt ->
        install_calls cs = [0; 2]
        /\ removal_calls cs = [0; 2]
        /\ successfully_installed self' = [0; 2]).
Proof.
  apply (install_in_order failing_install upgrade_state.2 upgrade_world [0; 2]).
  vm_compute. reflexivity.
Defined.

Example install_upgrade :
  match install failing_install upgrade_state.2 upgrade_world with
  | Some (self', w', out) =>
      out = Return tt
      /\ successfully_installed self' = [0; 2]
      /\ calls w'
         = [(Call_uninstall 0, None); (Call_install 0, None); (Call_commit 0, None);
            (Call_remove_temporary_source 0, None); (Call_install 2, None);
            (Call_remove_temporary_source 2, None)]
  | None => False
  end.
Proof. vm_compute. repeat split; reflexivity. Qed.

(** * Two more properties of add_requirement and _to_install *)

(** X20.  The two checks that come first.  A requirement whose markers do
    not match is ignored: nothing changes, not even the requirement, and
    nothing is raised, whatever its link.  The wheel error is raised
    exactly when the markers match and the link is a wheel that is not
    supported, and it leaves everything as it was too. *)
Theorem add_requirement_checks_first match_markers Wheel_supported h self install_req
    parent_req_name extras_requested :
  (match_markers (h install_req) extras_requested = false ->
   add_requirement match_markers Wheel_supported h self install_req parent_req_name
     extras_requested
   = (h, self, Return []))
  /\ (forall wheel_filename,
        (add_requirement match_markers Wheel_supported h self install_req
           parent_req_name extras_requested).2
        = Raise (InstallationError (NotSupportedWheel wheel_filename))
        <-> match_markers (h install_req) extras_requested = true
            /\ unsupported_wheel Wheel_supported (link (h install_req))
               = Some wheel_filename)
  /\ (forall wheel_filename,
        (add_requirement match_markers Wheel_supported h self install_req
           parent_req_name extras_requested).2
        = Raise (InstallationError (NotSupportedWheel wheel_filename)) ->
        (add_requirement match_markers Wheel_supported h self install_req
           parent_req_name extras_requested).1
        = (h, self)).
Proof.
  assert (Hrec : forall hx sx r result wheel_filename,
            (record_dependency hx sx parent_req_name r result).2
            <> Raise (InstallationError (NotSupportedWheel wheel_filename))).
  { intros hx sx r result fn.
    destruct (record_dependency hx sx parent_req_name r result) as [[h' s'] out] eqn:Heq.
    apply record_dependency_result in Heq as [_ [->|(e & -> & He)]]; [done|].
    simpl. intros [= ->]. exact He. }
  unfold add_requirement.
  destruct (match_markers (h install_req) extras_requested) eqn:Hm; simpl.
  2: { split; [done|]. split; [|done]. intros fn. split; [done|]. by intros [? _]. }
  split; [done|].
  destruct (unsupported_wheel Wheel_supported (link (h install_req))) as [fn0|] eqn:Hw.
  { split; [|done]. intros fn. simpl. split.
    - intros [= ->]. done.
    - intros [_ [= ->]]. done. }
  match goal with
  | |- (forall fn, (?t).2 = _ <-> _) /\ _ =>
      assert (Hnever : forall fn,
                t.2 <> Raise (InstallationError (NotSupportedWheel fn)))
  end.
  { intros fn. repeat case_match; simpl; try done; apply Hrec. }
  split.
  - intros fn. split; [intros Hraise; by destruct (Hnever fn)|]. by intros [_ ?].
  - intros fn Hraise. by destruct (Hnever fn).
Qed.

Lemma for_each_schedule_no_dependencies h fuel values s :
  NoDup values ->
  (forall x, x ∈ values -> x ∉ ordered_reqs s) ->
  for_each (schedule h ∅ (S fuel)) values s
  = Some {| order := order s ++ filter (fun r => skipped h r = false) values;
            ordered_reqs :=
              ordered_reqs s ∪ list_to_set (filter (fun r => skipped h r = false) values) |}.
Proof.
  revert s. induction values as [|r values IH]; intros s Hnd Hfresh.
  { simpl. rewrite app_nil_r, right_id_L by apply _. by destruct s. }
  apply NoDup_cons in Hnd as [Hr Hnd]. cbn [for_each].
  assert (Hstep : schedule h ∅ (S fuel) r s
                  = Some (if skipped h r then s
                          else {| order := order s ++ [r];
                                  ordered_reqs := {[r]} ∪ ordered_reqs s |})).
  { simpl. unfold skipped.
    destruct (bool_decide (is_Some (satisfied_by (h r)))); simpl; [done|].
    rewrite bool_decide_eq_false_2 by (apply Hfresh, elem_of_cons; by left).
    destruct (constraint (h r)); [done|].
    rewrite lookup_total_empty. done. }
  rewrite Hstep.
  destruct (skipped h r) eqn:Hskip.
  - rewrite IH; [|done|].
    + rewrite filter_cons_False by congruence. done.
    + intros x Hx. apply Hfresh, elem_of_cons. by right.
  - rewrite IH; [|done|]; simpl.
    + rewrite filter_cons_True by done. f_equal. f_equal.
      * by rewrite <- app_assoc.
      * set_solver.
    + intros x Hx [Hx'%elem_of_singleton|Hx']%elem_of_union.
      * by subst.
      * eapply Hfresh; [|exact Hx']. apply elem_of_cons. by right.
Qed.

(** X21.  Without recorded dependencies the requirements are installed in
    the order given: when [_dependencies] is empty and the registry holds
    distinct objects, the install order is the registered requirements in
    registry order, less those that are satisfied or are constraints. *)
Theorem to_install_no_dependencies h self values :
  _dependencies self = ∅ ->
  Requirements_values (requirements self) = Return values ->
  NoDup values ->
  _to_install h self
  = Some (Return (filter (fun r => skipped h r = false) values)).
Proof.
  intros Hd Hv Hnd. unfold _to_install. rewrite Hv, Hd.
  unfold depth_bound. rewrite dom_empty_L, size_empty.
  rewrite for_each_schedule_no_dependencies; [done..|].
  intros x _. simpl. set_solver.
Qed.

Lemma to_install_no_dependencies_witness :
  _to_install install_state.1 install_state.2
  = Some (Return (filter (fun r => skipped install_state.1 r = false) [0; 1; 2])).
Proof.
  apply (to_install_no_dependencies install_state.1 install_state.2 [0; 1; 2]).
  - reflexivity.
  - reflexivity.
  - apply (bool_decide_unpack _). vm_compute. exact I.
Defined.
